(** * media-sort: the file-system sorter ([sort/fs_sort.go])

    A shallow embedding of [fs_sort.go] and the properties of its scanner,
    placer, dispatcher and control loop.

    - Go's [int] and [int64] are [Z] (the counters wrap at 64 bits, see
      [int_wrap]); [len m] is the size of a [gmap].
    - [map[string]T] is [gmap string T].
    - A Go [error] is its message; [nil] is [None].
    - The operating system, the resolver ([Sort], [PrettyPath]), the
      [filepath] functions that clean paths and [fsnotify] are not part of
      the file: they are the fields of the class [Host], and every theorem
      holds for every host.
    - Every call that leaves the process and every log line is recorded in
      a trace, newest first. *)

From Stdlib Require Import ZArith String Ascii List Lia DecimalString.
From stdpp Require Import base gmap strings list.

Open Scope Z_scope.

(** ** Errors and formatted messages *)

(** An [error] value, identified with what its [Error()] method returns. *)
Record error : Type := errors_New { Error : string }.

Global Instance error_eq_dec : EqDecision error.
Proof. solve_decision. Defined.

Inductive result (A : Type) : Type :=
| Ok (a : A)
| Err (err : error).
Arguments Ok {A} a.
Arguments Err {A} err.

(** [%d] of [fmt]. *)
Definition itoa (n : Z) : string := NilZero.string_of_int (Z.to_int n).

(** Signed 64-bit wrap-around of Go's [int] arithmetic. *)
Definition int_wrap (z : Z) : Z := (z + 2 ^ 63) mod 2 ^ 64 - 2 ^ 63.

Definition len {K : Type} `{Countable K} {A : Type} (m : gmap K A) : Z :=
  Z.of_nat (size m).

(** ** The parts of [strings] and [path/filepath] that need no cleaning *)

Definition strings_HasPrefix (s pre : string) : bool := String.prefix pre s.

Definition strings_HasSuffix (s suf : string) : bool :=
  let n := String.length s in
  let k := String.length suf in
  (k <=? n)%nat && String.eqb (String.substring (n - k) k s) suf.

Definition strings_TrimSuffix (s suf : string) : string :=
  if strings_HasSuffix s suf
  then String.substring 0 (String.length s - String.length suf) s
  else s.

(** [strings.Split s sep] for a one-character separator: the pieces
    between the separators, one empty piece for the empty string. *)
Fixpoint strings_Split (s : string) (sep : ascii) : list string :=
  match s with
  | EmptyString => [EmptyString]
  | String c rest =>
      if Ascii.eqb c sep then EmptyString :: strings_Split rest sep
      else match strings_Split rest sep with
           | [] => [String c EmptyString]
           | piece :: pieces => String c piece :: pieces
           end
  end.

(** What the backward loop of [filepath.Ext] has met so far, reading the
    path from its end: nothing decisive, a separator, or the dot that
    starts the extension. *)
Inductive ext_scan : Type :=
| ScanOn
| ScanSeparator
| ScanDot (ext : string).

Fixpoint filepath_Ext_scan (path : string) : ext_scan :=
  match path with
  | EmptyString => ScanOn
  | String c rest =>
      match filepath_Ext_scan rest with
      | ScanOn =>
          if Ascii.eqb c "/" then ScanSeparator
          else if Ascii.eqb c "." then ScanDot path
          else ScanOn
      | found => found
      end
  end.

Definition filepath_Ext (path : string) : string :=
  match filepath_Ext_scan path with
  | ScanDot ext => ext
  | _ => EmptyString
  end.

(** ** [os.FileInfo] and [os.FileMode] *)

Definition ModeDir : Z := Z.shiftl 1 31.
Definition ModeSymlink : Z := Z.shiftl 1 27.
Definition ModeDevice : Z := Z.shiftl 1 26.
Definition ModeNamedPipe : Z := Z.shiftl 1 25.
Definition ModeSocket : Z := Z.shiftl 1 24.
Definition ModeCharDevice : Z := Z.shiftl 1 21.
Definition ModeIrregular : Z := Z.shiftl 1 19.
Definition ModeType : Z :=
  Z.lor ModeDir (Z.lor ModeSymlink (Z.lor ModeNamedPipe (Z.lor ModeSocket
    (Z.lor ModeDevice (Z.lor ModeCharDevice ModeIrregular))))).

Definition FileMode_IsRegular (m : Z) : bool := Z.land m ModeType =? 0.
Definition FileMode_IsDir (m : Z) : bool := negb (Z.land m ModeDir =? 0).

(** The answer of [os.Stat] or one entry of [ioutil.ReadDir].  [Listing]
    is what [ioutil.ReadDir] answers when the scanner lists this entry;
    it is read for directories only, and makes the part of the file
    system a scan can see a finite tree. *)
#[warnings="-register-all"]
Inductive FileInfo : Type := mkFileInfo {
  Name : string;
  Size : Z;
  Mode : Z;
  Listing : result (list FileInfo)
}.

Definition IsDir (info : FileInfo) : bool := FileMode_IsDir (Mode info).

(** ** The host: operating system, resolver and watcher *)

Class Host : Type := {
  World : Type;
  (** [os] *)
  os_Stat : string -> World -> result FileInfo;
  os_MkdirAll : string -> Z -> World -> option error * World;
  os_Rename : string -> string -> World -> option error * World;
  (** [path/filepath] *)
  filepath_Join : string -> string -> string;
  filepath_Dir : string -> string;
  (** the resolver and the path formatter of this package *)
  PathConfig : Type;
  Result : Type;
  Path : Result -> string;
  MType : Result -> string;
  Sort : string -> World -> result Result;
  PrettyPath : Result -> PathConfig -> result string;
  (** [mediasearch.Series] and [mediasearch.Movie] *)
  mediasearch_Series : string;
  mediasearch_Movie : string;
  (** [fsnotify]: creating a watcher, subscribing a directory, and the
      world as it is once an event has arrived and the delay has passed *)
  fsnotify_NewWatcher : World -> option error;
  watcher_Add : string -> World -> option error;
  watcher_wake : Z -> World -> World
}.

Inductive event : Type :=
| EvStat (path : string)
| EvReadDir (path : string)
| EvMkdirAll (path : string) (perm : Z)
| EvRename (oldpath newpath : string)
| EvSort (path : string)
| EvWatcherAdd (dir : string)
| EvSelect
| EvSleep (d : Z)
(** the cyan [Dryrun] notice of [sortAllFiles] *)
| LogDryrun
(** the green line of [sortFile]: id, total, source, destination *)
| LogMove (id total : Z) (src dst : string)
(** the red line of [sortAllFiles]: id, total, path, error *)
| LogFail (id total : Z) (path : string) (err : error)
| LogWatching (dir : string)
| LogChange (delay : Z).

(** The calls that change the file system. *)
Definition is_mutation (e : event) : bool :=
  match e with
  | EvMkdirAll _ _ | EvRename _ _ => true
  | _ => false
  end.

(** The calls that look at the file system. *)
Definition is_probe (e : event) : bool :=
  match e with
  | EvStat _ | EvReadDir _ => true
  | _ => false
  end.

Section FsSort.
Context {host : Host}.

(** ** [Config], [fileSort], [fsSort] *)

Record Config : Type := mkConfig {
  Targets : list string;
  TVDir : string;
  MovieDir : string;
  PathConfig_ : PathConfig;
  Extensions : string;
  Concurrency : Z;
  FileLimit : Z;
  Recursive : bool;
  DryRun : bool;
  SkipHidden : bool;
  Overwrite : bool;
  OverwriteIfLarger : bool;
  Watch : bool;
  WatchDelay : Z
}.

Record fileSort : Type := mkFileSort {
  f_id : Z;
  f_path : string;
  f_info : FileInfo;
  f_result : option Result;
  f_err : option error
}.

Record Stats : Type := mkStats { found : Z; matched : Z; moved : Z }.

Record fsSort : Type := mkFsSort {
  config : Config;
  validExts : gmap string bool;
  sorts : gmap string fileSort;
  dirs : gmap string bool;
  stats : Stats
}.

(** The sorter together with the world it runs in and the trace of what
    it has done so far (newest first). *)
Record State : Type := mkState {
  fs : fsSort;
  world : World;
  trace : list event
}.

Definition emit (e : event) (st : State) : State :=
  mkState (fs st) (world st) (e :: trace st).

Definition set_fs (f : fsSort) (st : State) : State :=
  mkState f (world st) (trace st).

Definition set_world (w : World) (st : State) : State :=
  mkState (fs st) w (trace st).

Definition set_sorts (m : gmap string fileSort) (f : fsSort) : fsSort :=
  mkFsSort (config f) (validExts f) m (dirs f) (stats f).

Definition set_dirs (d : gmap string bool) (f : fsSort) : fsSort :=
  mkFsSort (config f) (validExts f) (sorts f) d (stats f).

Definition set_stats (s : Stats) (f : fsSort) : fsSort :=
  mkFsSort (config f) (validExts f) (sorts f) (dirs f) s.

Definition incr_found (s : Stats) : Stats :=
  mkStats (int_wrap (found s + 1)) (matched s) (moved s).

Definition incr_matched (s : Stats) : Stats :=
  mkStats (found s) (int_wrap (matched s + 1)) (moved s).

(** [m[k]] on a [map[string]bool]: [false] for a missing key. *)
Definition index_bool (m : gmap string bool) (k : string) : bool :=
  default false (m !! k).

(** ** The scanner: [add] and [scan] *)

(** [fs.add(path, info)]. *)
Fixpoint add (path : string) (info : FileInfo) (st : State)
  : option error * State :=
  let f := fs st in
  let c := config f in
  (* skip hidden files and directories *)
  if SkipHidden c && strings_HasPrefix (Name info) "." then (None, st)
  (* limit recursion depth *)
  else if FileLimit c <=? len (sorts f) then (None, st)
  (* add regular files (non-symlinks) *)
  else if FileMode_IsRegular (Mode info) then
    let f1 := set_stats (incr_found (stats f)) f in
    if negb (index_bool (validExts f1) (filepath_Ext path))
    then (None, set_fs f1 st)
    else
      let file := mkFileSort (int_wrap (len (sorts f1) + 1)) path info None None in
      let f2 := set_sorts (<[path := file]> (sorts f1)) f1 in
      let f3 := set_stats (incr_matched (stats f2)) f2 in
      (None, set_fs f3 st)
  (* recurse into directories *)
  else if IsDir info then
    if negb (Recursive c)
    then (Some (errors_New "Recursive mode (-r) is required to sort directories"), st)
    else
      (* note directory *)
      let st1 := set_fs (set_dirs (<[path := true]> (dirs f)) f) st in
      (* add all files in dir *)
      let st2 := emit (EvReadDir path) st1 in
      match Listing info with
      | Err err => (Some err, st2)
      | Ok infos =>
          (fix range (infos : list FileInfo) (st : State) {struct infos}
             : option error * State :=
             match infos with
             | [] => (None, st)
             | info :: rest =>
                 let p := filepath_Join path (Name info) in
                 match add p info st with
                 | (Some err, st') => (Some err, st')
                 | (None, st') => range rest st'
                 end
             end) infos st2
      end
  (* skip links, pipes, etc *)
  else (None, st).

(** The loop [for _, info := range infos] of [add], by itself. *)
Fixpoint add_range (path : string) (infos : list FileInfo) (st : State)
  : option error * State :=
  match infos with
  | [] => (None, st)
  | info :: rest =>
      match add (filepath_Join path (Name info)) info st with
      | (Some err, st') => (Some err, st')
      | (None, st') => add_range path rest st'
      end
  end.

(** The loop [for _, path := range fs.Targets] of [scan]. *)
Fixpoint scan_targets (targets : list string) (st : State)
  : option error * State :=
  match targets with
  | [] => (None, st)
  | path :: rest =>
      let st1 := emit (EvStat path) st in
      match os_Stat path (world st1) with
      | Err err => (Some err, st1)
      | Ok info =>
          match add path info st1 with
          | (Some err, st2) => (Some err, st2)
          | (None, st2) => scan_targets rest st2
          end
      end
  end.

Definition no_sortable_files (n : Z) : error :=
  errors_New ("No sortable files found (" +:+ itoa n +:+ " files checked)").

(** [fs.scan()]. *)
Definition scan (st : State) : option error * State :=
  match scan_targets (Targets (config (fs st))) st with
  | (Some err, st') => (Some err, st')
  | (None, st') =>
      let f := fs st' in
      (* ensure we found something *)
      if (len (sorts f) =? 0) && (negb (Watch (config f)) || (len (dirs f) =? 0))
      then (Some (no_sortable_files (found (stats f))), st')
      else (None, st')
  end.

(** ** The placer: [sortFile] *)

Definition invalid_result_type (mtype : string) : error :=
  errors_New ("Invalid result type: " +:+ mtype).

Definition already_exists (newPath : string) : error :=
  errors_New ("File already exists '" +:+ newPath +:+ "' (try setting --overwrite)").

(** The [switch] on the media type: the base directory, if there is one. *)
Definition baseDir_of (c : Config) (mtype : string) : option string :=
  if String.eqb mtype mediasearch_Series then Some (TVDir c)
  else if String.eqb mtype mediasearch_Movie then Some (MovieDir c)
  else None.

(** The flag [overwrite] as the collision check leaves it, for the info
    [newInfo] of the file found at the destination. *)
Definition overwrite_flag (c : Config) (newInfo : FileInfo) (file : fileSort) : bool :=
  let newIsLarger := Size newInfo >? Size (f_info file) in
  let overwrite := Overwrite c in
  if negb overwrite && OverwriteIfLarger c && newIsLarger then true else overwrite.

(** The path of the subtitles that go with [p]. *)
Definition subs_path (p : string) : string :=
  strings_TrimSuffix p (filepath_Ext p) +:+ ".srt".

(** [fs.sortFile(file)]. *)
Definition sortFile (file : fileSort) (st : State) : option error * State :=
  let c := config (fs st) in
  let st := emit (EvSort (f_path file)) st in
  match Sort (f_path file) (world st) with
  | Err err => (Some err, st)
  | Ok result =>
  match PrettyPath result (PathConfig_ c) with
  | Err err => (Some err, st)
  | Ok newPath =>
  match baseDir_of c (MType result) with
  | None => (Some (invalid_result_type (MType result)), st)
  | Some baseDir =>
  let newPath := filepath_Join baseDir newPath in
  let st := emit (LogMove (f_id file) (len (sorts (fs st))) (Path result) newPath) st in
  if DryRun c then (None, st) (* dont actually move *)
  else if String.eqb (Path result) newPath then (None, st) (* already sorted *)
  else
    (* check already exists *)
    let st := emit (EvStat newPath) st in
    let refused :=
      match os_Stat newPath (world st) with
      | Ok newInfo => negb (overwrite_flag c newInfo file)
      | Err _ => false
      end in
    if refused then (Some (already_exists newPath), st)
    else
      (* mkdir -p *)
      let st := emit (EvMkdirAll (filepath_Dir newPath) 493) st in
      let '(err, w) := os_MkdirAll (filepath_Dir newPath) 493 (world st) in
      let st := set_world w st in
      match err with
      | Some err => (Some err, st) (* failed to mkdir *)
      | None =>
          (* mv *)
          let st := emit (EvRename (Path result) newPath) st in
          let '(err, w) := os_Rename (Path result) newPath (world st) in
          let st := set_world w st in
          match err with
          | Some err => (Some err, st) (* failed to move *)
          | None =>
              (* if .srt file exists for the file, mv it too *)
              let pathSubs := subs_path (Path result) in
              let st := emit (EvStat pathSubs) st in
              match os_Stat pathSubs (world st) with
              | Ok _ =>
                  let newPathSubs := subs_path newPath in
                  let st := emit (EvRename pathSubs newPathSubs) st in
                  (* best-effort: the error is dropped *)
                  let '(_, w) := os_Rename pathSubs newPathSubs (world st) in
                  (None, set_world w st)
              | Err _ => (None, st)
              end
          end
      end
  end end end.

(** ** The dispatcher: [sortAllFiles] *)

(** The body of the goroutine up to its release of the slot: place the
    file, and log the error if there is one. *)
Definition run_task (file : fileSort) (st : State) : State :=
  match sortFile file st with
  | (Some err, st') =>
      emit (LogFail (f_id file) (len (sorts (fs st'))) (f_path file) err) st'
  | (None, st') => st'
  end.

(** The candidates, in one of the orders [range fs.sorts] may take. *)
Definition candidates (st : State) : list fileSort :=
  (map_to_list (sorts (fs st))).*2.

(** How a call that may not return ends. *)
Inductive outcome : Type :=
| Returned (err : option error)
| Panicked
| Blocked
| Looping.

Definition dryrun_notice (st : State) : State :=
  if DryRun (config (fs st)) then emit LogDryrun st else st.

(** [fs.sortAllFiles()] under the schedule in which every goroutine runs
    to its end before the next candidate is dispatched.  [make] panics on
    a negative capacity; on an unbuffered channel the first send finds no
    receiver and blocks for ever.  The other schedules are those of
    [dstep] below. *)
Definition sortAllFiles (st : State) : outcome * State :=
  let st0 := dryrun_notice st in
  let n := Concurrency (config (fs st0)) in
  if n <? 0 then (Panicked, st0)
  else
    match candidates st0 with
    | [] => (Returned None, st0)
    | files =>
        if n =? 0 then (Blocked, st0)
        else (Returned None, foldl (fun st file => run_task file st) st0 files)
    end.

(** *** The goroutines of [sortAllFiles], one step at a time *)

(** Where the dispatching goroutine stands. *)
Inductive dpc : Type :=
| AtStart                   (* before the notice and [make] *)
| AtRange                   (* at the head of the [range] loop *)
| AtSend (file : fileSort)  (* after [wg.Add(1)], before [queue <- true] *)
| AtGo (file : fileSort)    (* after the send, before [go sortFile(file)] *)
| AtWait                    (* at [wg.Wait()] *)
| AtReturn                  (* [return nil] has run *)
| AtPanic.                  (* [make] has panicked *)

(** Where a spawned goroutine stands. *)
Inductive phase : Type :=
| Spawned    (* before [fs.sortFile(file)] *)
| Sorted     (* after the [if], before [<-queue] *)
| Received.  (* after [<-queue], before [wg.Done()] *)

Record dstate : Type := mkDstate {
  d_pc : dpc;
  d_todo : list fileSort;              (* what [range] has not yielded yet *)
  d_queue : Z;                         (* [len(queue)] *)
  d_wg : Z;                            (* the counter of [wg] *)
  d_tasks : list (fileSort * phase);   (* the goroutines that have not ended *)
  d_ended : list (fileSort * option error);
    (* history: the files whose [fs.sortFile] has returned, with its error *)
  d_st : State
}.

Definition dinit (st : State) : dstate :=
  mkDstate AtStart (candidates st) 0 0 [] [] st.

Inductive dstep : dstate -> dstate -> Prop :=
| step_make todo q wg tasks ended st :
    0 <= Concurrency (config (fs st)) ->
    dstep (mkDstate AtStart todo q wg tasks ended st)
          (mkDstate AtRange todo q wg tasks ended (dryrun_notice st))
| step_make_panic todo q wg tasks ended st :
    Concurrency (config (fs st)) < 0 ->
    dstep (mkDstate AtStart todo q wg tasks ended st)
          (mkDstate AtPanic todo q wg tasks ended (dryrun_notice st))
| step_range todo1 file todo2 q wg tasks ended st :
    dstep (mkDstate AtRange (todo1 ++ file :: todo2) q wg tasks ended st)
          (mkDstate (AtSend file) (todo1 ++ todo2) q (wg + 1) tasks ended st)
| step_send file todo q wg tasks ended st :
    q < Concurrency (config (fs st)) ->
    dstep (mkDstate (AtSend file) todo q wg tasks ended st)
          (mkDstate (AtGo file) todo (q + 1) wg tasks ended st)
| step_go file todo q wg tasks ended st :
    dstep (mkDstate (AtGo file) todo q wg tasks ended st)
          (mkDstate AtRange todo q wg ((file, Spawned) :: tasks) ended st)
| step_range_end q wg tasks ended st :
    dstep (mkDstate AtRange [] q wg tasks ended st)
          (mkDstate AtWait [] q wg tasks ended st)
| step_wait todo q tasks ended st :
    dstep (mkDstate AtWait todo q 0 tasks ended st)
          (mkDstate AtReturn todo q 0 tasks ended st)
| step_task_sort pc todo q wg tasks1 file tasks2 ended st :
    dstep (mkDstate pc todo q wg (tasks1 ++ (file, Spawned) :: tasks2) ended st)
          (mkDstate pc todo q wg (tasks1 ++ (file, Sorted) :: tasks2)
             ((file, (sortFile file st).1) :: ended) (run_task file st))
| step_task_receive pc todo q wg tasks1 file tasks2 ended st :
    0 < q ->
    dstep (mkDstate pc todo q wg (tasks1 ++ (file, Sorted) :: tasks2) ended st)
          (mkDstate pc todo (q - 1) wg (tasks1 ++ (file, Received) :: tasks2) ended st)
| step_task_done pc todo q wg tasks1 file tasks2 ended st :
    dstep (mkDstate pc todo q wg (tasks1 ++ (file, Received) :: tasks2) ended st)
          (mkDstate pc todo q (wg - 1) (tasks1 ++ tasks2) ended st).

(** The states the goroutines of one call can be in. *)
Inductive dreach (st : State) : dstate -> Prop :=
| dreach_init : dreach st (dinit st)
| dreach_step d d' : dreach st d -> dstep d d' -> dreach st d'.

(** What [sortAllFiles] has returned, if it has. *)
Definition d_result (d : dstate) : option (option error) :=
  match d_pc d with
  | AtReturn => Some None
  | _ => None
  end.

(** The goroutines that hold a slot of [queue]: those that have not
    received from it yet. *)
Definition holds_slot (t : fileSort * phase) : bool :=
  match t.2 with
  | Spawned | Sorted => true
  | Received => false
  end.

Fixpoint slots_held (tasks : list (fileSort * phase)) : Z :=
  match tasks with
  | [] => 0
  | t :: rest => (if holds_slot t then 1 else 0) + slots_held rest
  end.

(** The number of goroutines in flight: spawned, and not yet past their
    receive from [queue]. *)
Definition in_flight (d : dstate) : Z := slots_held (d_tasks d).

(** ** The watcher: [watch] *)

Definition failed_to_create_watcher (err : error) : error :=
  errors_New ("Failed to create file watcher: " +:+ Error err).

Definition failed_to_watch (err : error) : error :=
  errors_New ("Failed to watch directory: " +:+ Error err).

(** The loop [for dir, _ := range fs.dirs]. *)
Fixpoint watch_dirs (ds : list string) (st : State) : option error * State :=
  match ds with
  | [] => (None, st)
  | dir :: rest =>
      let st1 := emit (EvWatcherAdd dir) st in
      match watcher_Add dir (world st1) with
      | Some err => (Some (failed_to_watch err), st1)
      | None => watch_dirs rest (emit (LogWatching dir) st1)
      end
  end.

(** [fs.watch()], for a run in which a change does arrive. *)
Definition watch (st : State) : option error * State :=
  let f := fs st in
  if len (dirs f) =? 0 then (Some (errors_New "No directories to watch"), st)
  else
    match fsnotify_NewWatcher (world st) with
    | Some err => (Some (failed_to_create_watcher err), st)
    | None =>
        match watch_dirs (map_to_list (dirs f)).*1 st with
        | (Some err, st') => (Some err, st')
        | (None, st1) =>
            let delay := WatchDelay (config f) in
            let st2 := emit EvSelect st1 in
            let st3 := emit (LogChange delay) st2 in
            let st4 := emit (EvSleep delay) st3 in
            (None, set_world (watcher_wake delay (world st4)) st4)
        end
    end.

(** ** The control loop: [FileSystemSort] *)

(** The two assignments under [//reset state]. *)
Definition reset_state (st : State) : State :=
  set_fs (set_dirs ∅ (set_sorts ∅ (fs st))) st.

(** The [for] loop, for at most [passes] passes. *)
Fixpoint sort_loop (passes : nat) (c : Config) (st : State) : outcome * State :=
  match passes with
  | O => (Looping, st)
  | S passes' =>
      (* reset state *)
      let st := reset_state st in
      (* look for files *)
      match scan st with
      | (Some err, st) => (Returned (Some err), st)
      | (None, st) =>
          (* ensure we have dirs to watch *)
          if Watch (config (fs st)) && (len (dirs (fs st)) =? 0)
          then (Returned (Some (errors_New "No directories to watch")), st)
          else
            (* moment of truth - sort all files! *)
            match sortAllFiles st with
            | (Returned (Some err), st) => (Returned (Some err), st)
            | (Returned None, st) =>
                (* watch directories *)
                if negb (Watch c) then (Returned None, st)
                else
                  match watch st with
                  | (Some err, st) => (Returned (Some err), st)
                  | (None, st) => sort_loop passes' c st
                  end
            | (stuck, st) => (stuck, st)
            end
      end
  end.

Definition with_default_dirs (c : Config) : Config :=
  let movieDir := if String.eqb (MovieDir c) EmptyString then "." else MovieDir c in
  let tvDir := if String.eqb (TVDir c) EmptyString then "." else TVDir c in
  mkConfig (Targets c) tvDir movieDir (PathConfig_ c) (Extensions c)
    (Concurrency c) (FileLimit c) (Recursive c) (DryRun c) (SkipHidden c)
    (Overwrite c) (OverwriteIfLarger c) (Watch c) (WatchDelay c).

(** [validExts] as the loop over [strings.Split(c.Extensions, ",")] fills it. *)
Definition init_validExts (c : Config) : gmap string bool :=
  foldl (fun m e => <["." +:+ e := true]> m) ∅ (strings_Split (Extensions c) ",").

(** The sorter [FileSystemSort] starts its loop with. *)
Definition init_fsSort (c : Config) : fsSort :=
  mkFsSort c (init_validExts c) ∅ ∅ (mkStats 0 0 0).

(** [FileSystemSort(c)] in the world [w], for at most [passes] passes:
    how the call ends, the world it leaves and what it has done. *)
Definition FileSystemSort (passes : nat) (c : Config) (w : World)
  : outcome * World * list event :=
  let c := with_default_dirs c in
  if Watch c && negb (Recursive c)
  then (Returned (Some (errors_New "Recursive mode is required to watch directories")), w, [])
  else if Overwrite c && OverwriteIfLarger c
  then (Returned (Some (errors_New
          "Overwrite is already specified, overwrite-if-larger is redundant")), w, [])
  else
    let '(out, st) := sort_loop passes c (mkState (init_fsSort c) w []) in
    (out, world st, trace st).

End FsSort.

(** ** A small host to run the sorter on

    Files are a map from clean absolute paths to their [FileInfo]; the
    resolver is a table; a locked path cannot be renamed; a watcher wakes
    up in the next of a list of later file systems, if there is one. *)

Module TestHost.

Record TResult : Type := mkTResult {
  t_path : string;
  t_mtype : string;
  t_pretty : string
}.

Record TWorld : Type := mkTWorld {
  files : gmap string FileInfo;
  library : gmap string TResult;
  locked : list string;
  later : list (gmap string FileInfo)
}.

Definition set_files (fl : gmap string FileInfo) (w : TWorld) : TWorld :=
  mkTWorld fl (library w) (locked w) (later w).

Definition no_such_file (op path : string) : error :=
  errors_New (op +:+ " " +:+ path +:+ ": no such file or directory").

Definition stat (path : string) (w : TWorld) : result FileInfo :=
  match files w !! path with
  | Some info => Ok info
  | None => Err (no_such_file "stat" path)
  end.

Definition dir_info (name : string) (entries : list FileInfo) : FileInfo :=
  mkFileInfo name 4096 (Z.lor ModeDir 493) (Ok entries).

Definition file_info (name : string) (size : Z) : FileInfo :=
  mkFileInfo name size 420 (Ok []).

Definition pipe_info (name : string) : FileInfo :=
  mkFileInfo name 0 (Z.lor ModeNamedPipe 420) (Ok []).

Definition mkdirAll (path : string) (perm : Z) (w : TWorld) : option error * TWorld :=
  match files w !! path with
  | Some _ => (None, w)
  | None => (None, set_files (<[path := dir_info path []]> (files w)) w)
  end.

Definition permission_denied (op path : string) : error :=
  errors_New (op +:+ " " +:+ path +:+ ": permission denied").

Definition rename (oldpath newpath : string) (w : TWorld) : option error * TWorld :=
  match files w !! oldpath with
  | Some info =>
      if existsb (String.eqb oldpath) (locked w)
      then (Some (permission_denied "rename" oldpath), w)
      else (None, set_files (<[newpath := info]> (delete oldpath (files w))) w)
  | None => (Some (no_such_file "rename" oldpath), w)
  end.

Definition join (a b : string) : string := a +:+ "/" +:+ b.

Fixpoint dir_scan (p : string) : option string :=
  match p with
  | EmptyString => None
  | String c rest =>
      match dir_scan rest with
      | Some d => Some (String c d)
      | None => if Ascii.eqb c "/" then Some EmptyString else None
      end
  end.

Definition dir (p : string) : string :=
  match dir_scan p with
  | Some EmptyString => "/"
  | Some d => d
  | None => "."
  end.

Definition resolve (path : string) (w : TWorld) : result TResult :=
  match library w !! path with
  | Some r => Ok r
  | None => Err (errors_New ("No results for " +:+ path))
  end.

Definition wake (delay : Z) (w : TWorld) : TWorld :=
  match later w with
  | [] => w
  | next :: rest => mkTWorld next (library w) (locked w) rest
  end.

#[export] Instance test_host : Host := {|
  World := TWorld;
  os_Stat := stat;
  os_MkdirAll := mkdirAll;
  os_Rename := rename;
  filepath_Join := join;
  filepath_Dir := dir;
  PathConfig := unit;
  Result := TResult;
  Path := t_path;
  MType := t_mtype;
  Sort := resolve;
  PrettyPath := fun r _ => Ok (t_pretty r);
  mediasearch_Series := "series";
  mediasearch_Movie := "movie";
  fsnotify_NewWatcher := fun _ => None;
  watcher_Add := fun _ _ => None;
  watcher_wake := wake
|}.

Definition test_config : Config :=
  mkConfig ["/in"] "/tv" "/movies" tt "mp4,avi,mkv" 2 1000
    true false true false false false 3000000000.

Definition with_flags (c : Config)
  (recursive dryRun overwrite overwriteIfLarger watch : bool) : Config :=
  mkConfig (Targets c) (TVDir c) (MovieDir c) (PathConfig_ c) (Extensions c)
    (Concurrency c) (FileLimit c) recursive dryRun (SkipHidden c)
    overwrite overwriteIfLarger watch (WatchDelay c).

Definition with_limit (c : Config) (limit : Z) : Config :=
  mkConfig (Targets c) (TVDir c) (MovieDir c) (PathConfig_ c) (Extensions c)
    (Concurrency c) limit (Recursive c) (DryRun c) (SkipHidden c)
    (Overwrite c) (OverwriteIfLarger c) (Watch c) (WatchDelay c).

Definition with_targets (c : Config) (targets : list string) : Config :=
  mkConfig targets (TVDir c) (MovieDir c) (PathConfig_ c) (Extensions c)
    (Concurrency c) (FileLimit c) (Recursive c) (DryRun c) (SkipHidden c)
    (Overwrite c) (OverwriteIfLarger c) (Watch c) (WatchDelay c).

Definition episode : FileInfo := file_info "Show.S01E02.mkv" 700.
Definition notes : FileInfo := file_info "notes.txt" 12.
Definition inbox : FileInfo := dir_info "in" [episode; notes].

Definition episode_result : TResult :=
  mkTResult "/in/Show.S01E02.mkv" "series" "Show/Season 01/Show - S01E02.mkv".

Definition test_library : gmap string TResult :=
  {[ "/in/Show.S01E02.mkv" := episode_result ]}.

(** [/in] holds an episode, its subtitles and a text file. *)
Definition test_world : TWorld :=
  mkTWorld
    (<["/in" := inbox]>
      (<["/in/Show.S01E02.mkv" := episode]>
        (<["/in/Show.S01E02.srt" := file_info "Show.S01E02.srt" 3]>
          (<["/in/notes.txt" := notes]> ∅))))
    test_library [] [].

(** *** Inputs of the examples *)

Definition candidate : fileSort :=
  mkFileSort 1 "/in/Show.S01E02.mkv" episode None None.

Definition destination : string := "/tv/Show/Season 01/Show - S01E02.mkv".

(** The sorter after a scan that found [candidate], in the world [w]. *)
Definition placer_state (c : Config) (w : TWorld) : State :=
  mkState (set_sorts {[ "/in/Show.S01E02.mkv" := candidate ]} (init_fsSort c)) w [].

(** [test_world] with a file of [size] bytes already at [destination]. *)
Definition world_with_destination (size : Z) : TWorld :=
  set_files (<[destination := file_info "Show - S01E02.mkv" size]> (files test_world))
    test_world.

(** [test_world] with the subtitles locked, and with no resolver entry. *)
Definition world_with_locked_subtitles : TWorld :=
  mkTWorld (files test_world) test_library ["/in/Show.S01E02.srt"] [].

Definition world_without_library : TWorld :=
  mkTWorld (files test_world) ∅ [] [].

(** [/in] holds a text file; when the watcher wakes up, a named pipe has
    taken the place of [/in]. *)
Definition changing_world : TWorld :=
  mkTWorld (<["/in" := dir_info "in" [notes]]> (<["/in/notes.txt" := notes]> ∅))
    ∅ [] [ {[ "/in" := pipe_info "in" ]} ].

Definition overwrite_if_larger : Config :=
  with_flags test_config true false false true false.
Definition both_overwrite_flags : Config :=
  with_flags test_config true false true true false.
Definition dry_run : Config := with_flags test_config true true false false false.
Definition flat_config : Config := with_flags test_config false false false false false.
Definition watch_config : Config := with_flags test_config true false false false true.
Definition no_files_config : Config := with_limit test_config 0.
Definition missing_target_config : Config :=
  with_targets (with_limit test_config 0) ["/missing"].
Definition one_file_config : Config := with_limit test_config 1.

(** The sorter [FileSystemSort] starts with, in the world [w]. *)
Definition start (c : Config) (w : TWorld) : State := mkState (init_fsSort c) w [].

(** The states of the first pass of a watching run in [changing_world]:
    after the scan, after the dispatch, after the watcher has woken up. *)
Definition pass_scanned : State := (scan (reset_state (start watch_config changing_world))).2.
Definition pass_sorted : State := (sortAllFiles pass_scanned).2.
Definition pass_woken : State := (watch pass_sorted).2.

(** A dispatcher with [candidate] in flight. *)
Definition one_in_flight : dstate :=
  mkDstate AtRange [] 1 1 [(candidate, Spawned)] []
    (placer_state test_config test_world).

Definition with_concurrency (c : Config) (n : Z) : Config :=
  mkConfig (Targets c) (TVDir c) (MovieDir c) (PathConfig_ c) (Extensions c)
    n (FileLimit c) (Recursive c) (DryRun c) (SkipHidden c)
    (Overwrite c) (OverwriteIfLarger c) (Watch c) (WatchDelay c).

Definition unbuffered_config : Config := with_concurrency test_config 0.
Definition overwrite_config : Config := with_flags test_config true false true false false.
Definition watch_file_config : Config :=
  with_targets watch_config ["/in/Show.S01E02.mkv"].

(** [test_world] where the episode already is at its destination. *)
Definition sorted_library : gmap string TResult :=
  {[ "/in/Show.S01E02.mkv" :=
       mkTResult destination "series" "Show/Season 01/Show - S01E02.mkv" ]}.
Definition sorted_world : TWorld :=
  mkTWorld (files (world_with_destination 700)) sorted_library [] [].

(** A dry-run dispatcher that has placed [candidate] and not yet received
    from the queue. *)
Definition dry_sorted : dstate :=
  mkDstate AtRange [] 1 1 [(candidate, Sorted)]
    [(candidate, None)]
    (run_task candidate (emit LogDryrun (placer_state dry_run test_world))).

(** A dispatcher of capacity 0 at its first send. *)
Definition stuck_at_send : dstate :=
  mkDstate (AtSend candidate) [] 0 1 [] []
    (placer_state unbuffered_config test_world).

(** A dispatcher that has placed [candidate] and returned. *)
Definition returned_after_one : dstate :=
  mkDstate AtReturn [] 0 0 [] [(candidate, None)]
    (run_task candidate (placer_state test_config test_world)).

End TestHost.

(** * Vocabulary of the statements and proofs *)

Section Vocabulary.
Context {host : Host}.

(** The trace of a placement up to and including the move of the main
    file, newest first. *)
Definition moved_trace (file : fileSort) (st : State) (result : Result)
    (newPath : string) : list event :=
  [ EvRename (Path result) newPath;
    EvMkdirAll (filepath_Dir newPath) 493;
    EvStat newPath;
    LogMove (f_id file) (len (sorts (fs st))) (Path result) newPath;
    EvSort (f_path file) ] ++ trace st.

(** The error of [add] for a directory met without recursive mode. *)
Definition recursive_required : error :=
  errors_New "Recursive mode (-r) is required to sort directories".

(** The two guards at the head of [add]: a hidden entry under
    skip-hidden, or a candidate map that has reached the file limit. *)
Definition skipped (info : FileInfo) (st : State) : bool :=
  (SkipHidden (config (fs st)) && strings_HasPrefix (Name info) ".")
  || (FileLimit (config (fs st)) <=? len (sorts (fs st))).

(** [add] on a regular file whose extension is not allowed: the file is
    counted as found. *)
Definition count_file (st : State) : State :=
  set_fs (set_stats (incr_found (stats (fs st))) (fs st)) st.

(** [add] on a regular file with an allowed extension: counted as found,
    entered into the candidate map, counted as matched. *)
Definition add_file (path : string) (info : FileInfo) (st : State) : State :=
  let f1 := fs (count_file st) in
  let file := mkFileSort (int_wrap (len (sorts f1) + 1)) path info None None in
  let f2 := set_sorts (<[path := file]> (sorts f1)) f1 in
  set_fs (set_stats (incr_matched (stats f2)) f2) st.

(** [add] on a directory, up to the call of [ioutil.ReadDir]. *)
Definition note_dir (path : string) (st : State) : State :=
  emit (EvReadDir path)
    (set_fs (set_dirs (<[path := true]> (dirs (fs st))) (fs st)) st).

(** A scan reads its configuration, its extension table and the world;
    it changes none of them, nor the count of moved files. *)
Definition scan_frame (st st' : State) : Prop :=
  config (fs st') = config (fs st) /\
  validExts (fs st') = validExts (fs st) /\
  world st' = world st /\
  moved (stats (fs st')) = moved (stats (fs st)).

(** The candidate map has not grown beyond the file limit, or beyond
    what it held. *)
Definition within_limit (st st' : State) : Prop :=
  config (fs st') = config (fs st) /\
  len (sorts (fs st')) <= Z.max (len (sorts (fs st))) (FileLimit (config (fs st))).

(** The paths of the candidate map are still in it. *)
Definition keeps_candidates (st st' : State) : Prop :=
  dom (sorts (fs st)) ⊆ dom (sorts (fs st')).

(** Without recursion [add] records no directory and lists none. *)
Definition quiet_without_recursion (st st' : State) : Prop :=
  Recursive (config (fs st)) = false ->
  config (fs st') = config (fs st) /\
  dirs (fs st') = dirs (fs st) /\
  world st' = world st /\
  trace st' = trace st.

(** The values of a Go [int]. *)
Definition is_int (z : Z) : Prop := - 2 ^ 63 <= z < 2 ^ 63.

(** The state with [k] more files found and [m] more matched. *)
Definition shift_stats (k m : Z) (st : State) : State :=
  set_fs (set_stats (mkStats (int_wrap (found (stats (fs st)) + k))
                             (int_wrap (matched (stats (fs st)) + m))
                             (moved (stats (fs st)))) (fs st)) st.

(** The state with the counters of found and matched files at zero. *)
Definition zero_stats (st : State) : State :=
  set_fs (set_stats (mkStats 0 0 (moved (stats (fs st)))) (fs st)) st.

(** The file the dispatching goroutine has in hand, if any. *)
Definition in_hand (pc : dpc) : list fileSort :=
  match pc with
  | AtSend file | AtGo file => [file]
  | _ => []
  end.

(** 1 when the dispatcher has sent a token for a goroutine it has not
    started yet. *)
Definition sent_ahead (pc : dpc) : Z :=
  match pc with
  | AtGo _ => 1
  | _ => 0
  end.

(** 1 when the dispatcher has counted in [wg] a goroutine it has not
    started yet. *)
Definition added_ahead (pc : dpc) : Z :=
  match pc with
  | AtSend _ | AtGo _ => 1
  | _ => 0
  end.

(** The files of the goroutines that have not called [fs.sortFile] yet. *)
Fixpoint unsorted (tasks : list (fileSort * phase)) : list fileSort :=
  match tasks with
  | [] => []
  | (file, Spawned) :: rest => file :: unsorted rest
  | _ :: rest => unsorted rest
  end.

(** The tokens in [queue] are those of the goroutines in flight, plus the
    one sent for the goroutine about to start; the counter of [wg] is the
    number of goroutines that have not ended, plus the one about to
    start. *)
Definition accounted (n : Z) (d : dstate) : Prop :=
  d_queue d = in_flight d + sent_ahead (d_pc d) /\
  d_wg d = Z.of_nat (length (d_tasks d)) + added_ahead (d_pc d) /\
  d_queue d <= n /\
  d_pc d <> AtPanic /\
  (d_pc d = AtWait \/ d_pc d = AtReturn -> d_todo d = []) /\
  (d_pc d = AtReturn -> d_wg d = 0).

(** Every candidate is in exactly one place: not yet yielded by [range],
    in the hand of the dispatcher, with a goroutine that has not placed
    it yet, or placed. *)
Definition all_present (st : State) (d : dstate) : Prop :=
  d_todo d ++ in_hand (d_pc d) ++ unsorted (d_tasks d) ++ (d_ended d).*1
  ≡ₚ candidates st.

(** Every error a placement has returned is in the log. *)
Definition errors_logged (total : Z) (d : dstate) : Prop :=
  forall file err,
    (file, Some err) ∈ d_ended d ->
    LogFail (f_id file) total (f_path file) err ∈ trace (d_st d).

Definition pc_steps (pc : dpc) : nat :=
  match pc with
  | AtStart => 3
  | AtRange => 2
  | AtSend _ => 7
  | AtGo _ => 6
  | AtWait => 1
  | AtReturn | AtPanic => 0
  end.

Definition phase_steps (ph : phase) : nat :=
  match ph with
  | Spawned => 3
  | Sorted => 2
  | Received => 1
  end.

Fixpoint tasks_steps (tasks : list (fileSort * phase)) : nat :=
  match tasks with
  | [] => 0
  | t :: rest => phase_steps t.2 + tasks_steps rest
  end.

(** The number of steps the goroutines still have to take. *)
Definition steps_left (d : dstate) : nat :=
  pc_steps (d_pc d) + 6 * length (d_todo d) + tasks_steps (d_tasks d).

(** What a call has added to the trace holds only looks at the file
    system, and the world is as it was. *)
Definition only_probes (st st' : State) : Prop :=
  world st' = world st /\
  exists new,
    trace st' = new ++ trace st /\ Forall (fun e => is_probe e = true) new.

(** The directory set holds exactly the directories that have been
    listed, each with the value [true]. *)
Definition dirs_listed (st : State) : Prop :=
  forall p,
    (EvReadDir p ∈ trace st -> dirs (fs st) !! p = Some true) /\
    (is_Some (dirs (fs st) !! p) -> EvReadDir p ∈ trace st).

(** What holds of the candidate stored under the key [k]. *)
Definition candidate_ok (c : Config) (exts : gmap string bool)
    (k : string) (file : fileSort) : Prop :=
  f_path file = k /\
  FileMode_IsRegular (Mode (f_info file)) = true /\
  index_bool exts (filepath_Ext k) = true /\
  1 <= f_id file <= FileLimit c /\
  (SkipHidden c = true -> strings_HasPrefix (Name (f_info file)) "." = false) /\
  f_result file = None /\ f_err file = None.

Definition sorts_ok (st : State) : Prop :=
  forall k file,
    sorts (fs st) !! k = Some file ->
    candidate_ok (config (fs st)) (validExts (fs st)) k file.

(** What subscribing to the directories [ds], in this order, adds to the
    trace (newest first). *)
Definition subscriptions (ds : list string) : list event :=
  flat_map (fun d => [LogWatching d; EvWatcherAdd d]) (rev ds).

(** The calls of the resolver. *)
Definition is_sort (e : event) : bool :=
  match e with
  | EvSort _ => true
  | _ => false
  end.

(** The string [s] does not hold the character [c]. *)
Definition lacks (c : ascii) (s : string) : Prop :=
  forall n, String.get n s <> Some c.

(** [p] is [base] followed by [ext], and [ext] is the final extension of
    [p]: the part from the last dot on when that dot comes after the last
    separator, and nothing when the last element of [p] has no dot. *)
Definition final_extension (p base ext : string) : Prop :=
  p = base +:+ ext /\
  ((ext = EmptyString /\
    ((lacks "/" p /\ lacks "." p) \/
     exists dir name,
       p = dir +:+ String "/" name /\ lacks "/" name /\ lacks "." name)) \/
   exists rest, ext = String "." rest /\ lacks "/" rest /\ lacks "." rest).

(** An entry that [add] makes a candidate when the file limit allows: a
    regular file that is not skipped as hidden and whose extension is in
    the table [exts]. *)
Definition sortable_in (c : Config) (exts : gmap string bool)
    (path : string) (info : FileInfo) : bool :=
  negb (SkipHidden c && strings_HasPrefix (Name info) ".")
  && FileMode_IsRegular (Mode info)
  && index_bool exts (filepath_Ext path).

(** The same for the table [FileSystemSort] builds from the option. *)
Definition sortable (c : Config) (path : string) (info : FileInfo) : bool :=
  sortable_in c (init_validExts c) path info.

End Vocabulary.

(** * Properties *)

Section Validation.
Context {host : Host}.

(** C4. Whenever both overwrite flags are set, or watch is set without
    recursive, [FileSystemSort] returns its error at once: the world is
    the one it was given and the trace is empty, so no stat, no listing
    and no change of the file system has taken place; no sorter has been
    built, so no candidate exists either.  The error is the one on
    recursive mode when watch lacks recursive, and the one on the
    redundant flag otherwise. *)
Theorem FileSystemSort_rejects_contradictory_config
    (passes : nat) (c : Config) (w : World) :
  (Overwrite c = true /\ OverwriteIfLarger c = true) \/
  (Watch c = true /\ Recursive c = false) ->
  FileSystemSort passes c w =
    (Returned (Some
       (if Watch c && negb (Recursive c)
        then errors_New "Recursive mode is required to watch directories"
        else errors_New
               "Overwrite is already specified, overwrite-if-larger is redundant")),
     w, []).
Proof.
  intros Hbad. unfold FileSystemSort. cbn [with_default_dirs Watch Recursive
    Overwrite OverwriteIfLarger].
  destruct (Watch c && negb (Recursive c)) eqn:Hw; [reflexivity|].
  destruct Hbad as [[Ho Hl]|[Hwt Hr]].
  - rewrite Ho, Hl. reflexivity.
  - rewrite Hwt, Hr in Hw. discriminate.
Qed.

End Validation.

Section Placer.
Context {host : Host}.

Lemma sortFile_fs (file : fileSort) (st : State) :
  fs (sortFile file st).2 = fs st.
Proof.
  unfold sortFile.
  repeat match goal with
  | |- context [match ?x with _ => _ end] => destruct x; cbn
  end; reflexivity.
Qed.

(** C5. With dry-run set the placer changes nothing: the sorter and the
    world are as before, and what it adds to the trace holds no mkdir, no
    rename and not even a stat (the destination is never looked at, so a
    file that already exists there makes no difference).  Whenever the
    destination path can be computed (the resolver and the formatter
    succeed and the media type has a base directory) it returns success
    right after logging the intended move. *)
Theorem sortFile_dry_run (file : fileSort) (st : State) :
  DryRun (config (fs st)) = true ->
  fs (sortFile file st).2 = fs st /\
  world (sortFile file st).2 = world st /\
  (exists new,
      trace (sortFile file st).2 = new ++ trace st /\
      Forall (fun e => is_mutation e = false /\ is_probe e = false) new) /\
  (forall result relPath baseDir,
      Sort (f_path file) (world st) = Ok result ->
      PrettyPath result (PathConfig_ (config (fs st))) = Ok relPath ->
      baseDir_of (config (fs st)) (MType result) = Some baseDir ->
      sortFile file st =
        (None,
         emit (LogMove (f_id file) (len (sorts (fs st))) (Path result)
                 (filepath_Join baseDir relPath))
           (emit (EvSort (f_path file)) st))).
Proof.
  intros Hdry. split; [apply sortFile_fs|].
  unfold sortFile. cbn [emit fs world trace]. rewrite Hdry.
  assert (Hquiet : Forall (fun e => is_mutation e = false /\ is_probe e = false)
                     [EvSort (f_path file)]) by (repeat constructor).
  split; [|split].
  - repeat match goal with
    | |- context [match ?x with _ => _ end] => destruct x; cbn
    end; reflexivity.
  - destruct (Sort (f_path file) (world st)) as [result|e];
      [|exists [EvSort (f_path file)]; split; [reflexivity|assumption]].
    destruct (PrettyPath result _) as [relPath|e];
      [|exists [EvSort (f_path file)]; split; [reflexivity|assumption]].
    destruct (baseDir_of _ _) as [baseDir|];
      [|exists [EvSort (f_path file)]; split; [reflexivity|assumption]].
    eexists [_; _]. split; [reflexivity|]. repeat constructor.
  - intros result relPath baseDir Hr Hp Hb. rewrite Hr, Hp, Hb. reflexivity.
Qed.

(** What the collision check computes: the destination is overwritten
    when [Overwrite] is set, or when [OverwriteIfLarger] is set and the
    file found at the destination is larger than the candidate. *)
Lemma overwrite_flag_spec (c : Config) (newInfo : FileInfo) (file : fileSort) :
  overwrite_flag c newInfo file =
  Overwrite c || (OverwriteIfLarger c && (Size newInfo >? Size (f_info file))).
Proof.
  unfold overwrite_flag.
  destruct (Overwrite c), (OverwriteIfLarger c),
    (Size newInfo >? Size (f_info file)); reflexivity.
Qed.

Lemma string_length_app (s1 s2 : string) :
  String.length (s1 +:+ s2) = (String.length s1 + String.length s2)%nat.
Proof.
  induction s1 as [|c s1 IH]; [reflexivity|].
  change (String c s1 +:+ s2) with (String c (s1 +:+ s2)). cbn. f_equal. exact IH.
Qed.

Lemma string_app_empty (s : string) : s +:+ EmptyString = s.
Proof.
  induction s as [|c s IH]; [reflexivity|].
  change (String c s +:+ EmptyString) with (String c (s +:+ EmptyString)).
  rewrite IH. reflexivity.
Qed.

Lemma substring_skip_prefix (base s : string) (n : nat) :
  String.substring (String.length base) n (base +:+ s) = String.substring 0 n s.
Proof.
  induction base as [|c base IH]; [reflexivity|].
  change (String c base +:+ s) with (String c (base +:+ s)). cbn. exact IH.
Qed.

Lemma substring_whole (s : string) :
  String.substring 0 (String.length s) s = s.
Proof. induction s as [|c s IH]; cbn; [reflexivity|]. f_equal. exact IH. Qed.

Lemma substring_prefix (base s : string) :
  String.substring 0 (String.length base) (base +:+ s) = base.
Proof.
  induction base as [|c base IH].
  - destruct s; reflexivity.
  - change (String c base +:+ s) with (String c (base +:+ s)). cbn.
    f_equal. exact IH.
Qed.

Lemma strings_TrimSuffix_app (base suf : string) :
  strings_TrimSuffix (base +:+ suf) suf = base.
Proof.
  unfold strings_TrimSuffix, strings_HasSuffix. rewrite string_length_app.
  replace (String.length base + String.length suf - String.length suf)%nat
    with (String.length base) by lia.
  rewrite substring_skip_prefix, substring_whole, String.eqb_refl.
  destruct (Nat.leb_spec (String.length suf)
              (String.length base + String.length suf)); [|lia].
  cbn. apply substring_prefix.
Qed.

Lemma lacks_empty (c : ascii) : lacks c EmptyString.
Proof. intros n. destruct n; discriminate. Qed.

Lemma lacks_cons (c a : ascii) (s : string) :
  a <> c -> lacks c s -> lacks c (String a s).
Proof.
  intros Hne Hs n. destruct n as [|n]; cbn.
  - intros [= E]. contradiction.
  - apply Hs.
Qed.

(** What the backward loop of [filepath.Ext] has found, in terms of the
    path alone. *)
Lemma filepath_Ext_scan_spec (p : string) :
  match filepath_Ext_scan p with
  | ScanOn => lacks "/" p /\ lacks "." p
  | ScanSeparator =>
      exists dir name,
        p = dir +:+ String "/" name /\ lacks "/" name /\ lacks "." name
  | ScanDot ext =>
      exists base rest,
        p = base +:+ ext /\ ext = String "." rest /\
        lacks "/" rest /\ lacks "." rest
  end.
Proof.
  induction p as [|c p IH]; cbn [filepath_Ext_scan].
  - split; apply lacks_empty.
  - destruct (filepath_Ext_scan p) as [| |ext].
    + destruct IH as [Hslash Hdot].
      destruct (Ascii.eqb_spec c "/") as [->|Hc1].
      { exists EmptyString, p. auto. }
      destruct (Ascii.eqb_spec c ".") as [->|Hc2].
      { exists EmptyString, p. auto. }
      split; apply lacks_cons; assumption.
    + destruct IH as (dir & name & -> & Hslash & Hdot).
      exists (String c dir), name. auto.
    + destruct IH as (base & rest & -> & Hext & Hslash & Hdot).
      exists (String c base), rest. auto.
Qed.

(** The subtitle path of [p] is [p] with its final extension replaced by
    [.srt]. *)
Lemma subs_path_final (p : string) :
  exists base ext,
    final_extension p base ext /\ subs_path p = base +:+ ".srt".
Proof.
  unfold subs_path, filepath_Ext. pose proof (filepath_Ext_scan_spec p) as Hscan.
  destruct (filepath_Ext_scan p) as [| |ext].
  - exists p, EmptyString. split.
    + split; [rewrite string_app_empty; reflexivity|]. left. auto.
    + rewrite <- (string_app_empty p) at 1. rewrite strings_TrimSuffix_app.
      reflexivity.
  - exists p, EmptyString. split.
    + split; [rewrite string_app_empty; reflexivity|]. left. auto.
    + rewrite <- (string_app_empty p) at 1. rewrite strings_TrimSuffix_app.
      reflexivity.
  - destruct Hscan as (base & rest & -> & Hext & Hslash & Hdot).
    exists base, ext. split.
    + split; [reflexivity|]. right. eauto.
    + rewrite strings_TrimSuffix_app. reflexivity.
Qed.

(** C8. Once the main file has been moved (the destination was computed,
    dry-run is off, the collision check let the move through, mkdir and
    rename succeeded), [sortFile] returns success whatever happens to the
    subtitles, and the dispatcher logs no failure for the candidate.  The
    subtitle file is the one whose path is the source path with its final
    extension (the part from the last dot of the last path element, if
    there is one) replaced by [.srt], and it goes to the destination path
    with its final extension replaced by [.srt].  If the stat of the
    former succeeds, one rename from the former to the latter is
    attempted and its error is dropped; otherwise nothing more is
    done. *)
Theorem sortFile_subtitles_best_effort
    (file : fileSort) (st : State) (result : Result) (relPath baseDir : string)
    (w1 w2 : World) :
  let c := config (fs st) in
  let newPath := filepath_Join baseDir relPath in
  let pathSubs := subs_path (Path result) in
  let newPathSubs := subs_path newPath in
  Sort (f_path file) (world st) = Ok result ->
  PrettyPath result (PathConfig_ c) = Ok relPath ->
  baseDir_of c (MType result) = Some baseDir ->
  DryRun c = false ->
  Path result <> newPath ->
  (forall newInfo, os_Stat newPath (world st) = Ok newInfo ->
                   overwrite_flag c newInfo file = true) ->
  os_MkdirAll (filepath_Dir newPath) 493 (world st) = (None, w1) ->
  os_Rename (Path result) newPath w1 = (None, w2) ->
  (exists base ext,
      final_extension (Path result) base ext /\ pathSubs = base +:+ ".srt") /\
  (exists base ext,
      final_extension newPath base ext /\ newPathSubs = base +:+ ".srt") /\
  exists st',
    sortFile file st = (None, st') /\
    run_task file st = st' /\
    fs st' = fs st /\
    match os_Stat pathSubs w2 with
    | Ok _ =>
        world st' = (os_Rename pathSubs newPathSubs w2).2 /\
        trace st' =
          EvRename pathSubs newPathSubs :: EvStat pathSubs ::
          moved_trace file st result newPath
    | Err _ =>
        world st' = w2 /\
        trace st' = EvStat pathSubs :: moved_trace file st result newPath
    end.
Proof.
  intros c newPath pathSubs newPathSubs Hsort Hpretty Hbase Hdry Hne Hcoll Hmk Hmv.
  assert (Hrun : forall st', sortFile file st = (None, st') -> run_task file st = st').
  { intros st' E. unfold run_task. rewrite E. reflexivity. }
  assert (Hsf : exists st', sortFile file st = (None, st') /\ fs st' = fs st /\
    match os_Stat pathSubs w2 with
    | Ok _ =>
        world st' = (os_Rename pathSubs newPathSubs w2).2 /\
        trace st' =
          EvRename pathSubs newPathSubs :: EvStat pathSubs ::
          moved_trace file st result newPath
    | Err _ =>
        world st' = w2 /\
        trace st' = EvStat pathSubs :: moved_trace file st result newPath
    end).
  { unfold sortFile. cbn [emit fs world trace]. fold c.
    rewrite Hsort, Hpretty, Hbase, Hdry. fold newPath.
    destruct (String.eqb_spec (Path result) newPath) as [E|_]; [contradiction|].
    assert (Hpass : match os_Stat newPath (world st) with
                    | Ok newInfo => negb (overwrite_flag c newInfo file)
                    | Err _ => false
                    end = false).
    { destruct (os_Stat newPath (world st)) as [newInfo|e] eqn:Hst; [|reflexivity].
      rewrite (Hcoll newInfo eq_refl). reflexivity. }
    rewrite Hpass, Hmk. cbn [set_world emit fs world trace]. rewrite Hmv.
    cbn [set_world emit fs world trace]. fold pathSubs newPathSubs.
    destruct (os_Stat pathSubs w2) as [i|e].
    - destruct (os_Rename pathSubs newPathSubs w2) as [e' w3].
      eexists. split; [reflexivity|]. cbn. auto.
    - eexists. split; [reflexivity|]. cbn. auto. }
  destruct Hsf as (st' & E & Hfs & Hrest).
  split; [apply subs_path_final|]. split; [apply subs_path_final|].
  exists st'. auto.
Qed.

End Placer.

Section Scanner.
Context {host : Host}.

Lemma FileInfo_tree_ind (P : FileInfo -> Prop) :
  (forall name size mode err, P (mkFileInfo name size mode (Err err))) ->
  (forall name size mode infos,
      Forall P infos -> P (mkFileInfo name size mode (Ok infos))) ->
  forall info, P info.
Proof.
  intros Herr Hok.
  fix IH 1. intros [name size mode [infos|err]].
  - apply Hok. induction infos as [|i rest IHrest]; constructor.
    + apply IH.
    + exact IHrest.
  - apply Herr.
Qed.

Lemma add_unfold (path : string) (info : FileInfo) (st : State) :
  add path info st =
  if skipped info st then (None, st)
  else if FileMode_IsRegular (Mode info) then
    if index_bool (validExts (fs st)) (filepath_Ext path)
    then (None, add_file path info st)
    else (None, count_file st)
  else if IsDir info then
    if Recursive (config (fs st)) then
      match Listing info with
      | Err err => (Some err, note_dir path st)
      | Ok infos => add_range path infos (note_dir path st)
      end
    else (Some recursive_required, st)
  else (None, st).
Proof.
  destruct info as [name size mode listing]. unfold skipped. cbn.
  destruct (SkipHidden _ && _); [reflexivity|]. cbn.
  destruct (_ <=? _); [reflexivity|].
  destruct (FileMode_IsRegular mode).
  { destruct (index_bool _ _); reflexivity. }
  destruct (IsDir _); [|reflexivity].
  destruct (Recursive _); [|reflexivity]. cbn.
  destruct listing as [infos|err]; [|reflexivity].
  unfold note_dir. generalize (emit (EvReadDir path)
    (set_fs (set_dirs (<[path:=true]> (dirs (fs st))) (fs st)) st)) as st0.
  induction infos as [|i rest IH]; intros st0; [reflexivity|].
  cbn [add_range]. destruct (add _ i st0) as [[e|] st1]; [reflexivity|]. apply IH.
Qed.

(** *** Relations that every step of a scan respects *)

Section Closure.
Variable R : State -> State -> Prop.
Hypothesis R_refl : forall st, R st st.
Hypothesis R_trans : forall st1 st2 st3, R st1 st2 -> R st2 st3 -> R st1 st3.
Hypothesis R_count :
  forall st, len (sorts (fs st)) < FileLimit (config (fs st)) -> R st (count_file st).
Hypothesis R_add :
  forall path info st,
    len (sorts (fs st)) < FileLimit (config (fs st)) ->
    R st (add_file path info st).
Hypothesis R_note :
  forall path st,
    Recursive (config (fs st)) = true ->
    len (sorts (fs st)) < FileLimit (config (fs st)) ->
    R st (note_dir path st).
Hypothesis R_stat : forall path st, R st (emit (EvStat path) st).

Lemma add_range_closed_from (path : string) (infos : list FileInfo) :
  Forall (fun info => forall path st, R st (add path info st).2) infos ->
  forall st, R st (add_range path infos st).2.
Proof.
  induction 1 as [|info rest Hinfo _ IH]; intros st; cbn [add_range].
  - apply R_refl.
  - specialize (Hinfo (filepath_Join path (Name info)) st).
    destruct (add _ info st) as [[err|] st1]; cbn in *; [assumption|].
    eapply R_trans; [exact Hinfo|apply IH].
Qed.

Lemma add_closed (info : FileInfo) :
  forall path st, R st (add path info st).2.
Proof.
  induction info as [name size mode err|name size mode infos IH]
    using FileInfo_tree_ind; intros path st; rewrite add_unfold.
  - unfold skipped.
    destruct (SkipHidden _ && _); cbn [orb]; [apply R_refl|].
    destruct (Z.leb_spec (FileLimit (config (fs st))) (len (sorts (fs st))));
      [apply R_refl|].
    destruct (FileMode_IsRegular _).
    { destruct (index_bool _ _); cbn; auto. }
    destruct (IsDir _); [|apply R_refl].
    destruct (Recursive _) eqn:Hrec; [|apply R_refl]. cbn. auto.
  - unfold skipped.
    destruct (SkipHidden _ && _); cbn [orb]; [apply R_refl|].
    destruct (Z.leb_spec (FileLimit (config (fs st))) (len (sorts (fs st))));
      [apply R_refl|].
    destruct (FileMode_IsRegular _).
    { destruct (index_bool _ _); cbn; auto. }
    destruct (IsDir _); [|apply R_refl].
    destruct (Recursive _) eqn:Hrec; [|apply R_refl]. cbn [Listing].
    eapply R_trans; [apply (R_note path st); assumption|].
    apply add_range_closed_from. exact IH.
Qed.

Lemma add_range_closed (path : string) (infos : list FileInfo) (st : State) :
  R st (add_range path infos st).2.
Proof.
  apply add_range_closed_from. apply Forall_forall. intros info _.
  apply add_closed.
Qed.

Lemma scan_targets_closed (targets : list string) :
  forall st, R st (scan_targets targets st).2.
Proof.
  induction targets as [|path rest IH]; intros st; cbn [scan_targets].
  - apply R_refl.
  - cbn [emit world]. destruct (os_Stat path (world st)) as [info|err]; cbn.
    + pose proof (add_closed info path (emit (EvStat path) st)) as Hadd.
      destruct (add path info _) as [[err|] st1]; cbn in *.
      * eapply R_trans; [apply R_stat|exact Hadd].
      * eapply R_trans; [apply R_stat|]. eapply R_trans; [exact Hadd|apply IH].
    + apply R_stat.
Qed.

Lemma scan_closed (st : State) : R st (scan st).2.
Proof.
  unfold scan. pose proof (scan_targets_closed (Targets (config (fs st))) st) as H.
  destruct (scan_targets _ st) as [[err|] st1]; cbn in *; [assumption|].
  destruct (_ && _); assumption.
Qed.

End Closure.

(** A directory is not a regular file: [ModeDir] is one of the bits of
    [ModeType]. *)
Lemma IsDir_not_regular (mode : Z) :
  FileMode_IsDir mode = true -> FileMode_IsRegular mode = false.
Proof.
  unfold FileMode_IsDir, FileMode_IsRegular. intros Hdir.
  apply negb_true_iff, Z.eqb_neq in Hdir. apply Z.eqb_neq. intros Hreg.
  apply Hdir. apply Z.bits_inj'. intros n Hn.
  rewrite Z.land_spec, Z.bits_0.
  destruct (Z.eq_dec n 31) as [->|Hne].
  - apply (f_equal (fun z => Z.testbit z 31)) in Hreg.
    rewrite Z.land_spec, Z.bits_0 in Hreg.
    change (Z.testbit ModeType 31) with true in Hreg.
    rewrite andb_true_r in Hreg. rewrite Hreg. reflexivity.
  - unfold ModeDir. rewrite Z.shiftl_1_l, Z.pow2_bits_eqb by lia.
    destruct (Z.eqb_spec 31 n); [lia|]. apply andb_false_r.
Qed.

Lemma len_insert_le {A : Type} (m : gmap string A) (k : string) (v : A) :
  len (<[k := v]> m) <= len m + 1.
Proof.
  unfold len. destruct (m !! k) eqn:Hk.
  - rewrite map_size_insert_Some by eauto. lia.
  - rewrite map_size_insert_None by assumption. lia.
Qed.

Lemma len_empty {A : Type} : len (∅ : gmap string A) = 0.
Proof. unfold len. rewrite map_size_empty. reflexivity. Qed.

Lemma len_nonneg {A : Type} (m : gmap string A) : 0 <= len m.
Proof. unfold len. lia. Qed.

Lemma add_frame (path : string) (info : FileInfo) (st : State) :
  scan_frame st (add path info st).2.
Proof.
  apply add_closed; unfold scan_frame; cbn; intros; intuition congruence.
Qed.

Lemma scan_targets_frame (targets : list string) (st : State) :
  scan_frame st (scan_targets targets st).2.
Proof.
  apply scan_targets_closed; unfold scan_frame; cbn; intros; intuition congruence.
Qed.

Lemma within_limit_trans (st1 st2 st3 : State) :
  within_limit st1 st2 -> within_limit st2 st3 -> within_limit st1 st3.
Proof. unfold within_limit. intros [E1 H1] [E2 H2]. rewrite E1 in *. split; [congruence|lia]. Qed.

(** Once the limit is reached, [add] does nothing and reports no error. *)
Lemma add_at_limit (path : string) (info : FileInfo) (st : State) :
  FileLimit (config (fs st)) <= len (sorts (fs st)) ->
  add path info st = (None, st).
Proof.
  intros Hfull. rewrite add_unfold. unfold skipped.
  apply Z.leb_le in Hfull. rewrite Hfull, orb_true_r. reflexivity.
Qed.

Lemma add_range_at_limit (path : string) (infos : list FileInfo) (st : State) :
  FileLimit (config (fs st)) <= len (sorts (fs st)) ->
  add_range path infos st = (None, st).
Proof.
  intros Hfull. induction infos as [|info rest IH]; cbn [add_range]; [reflexivity|].
  rewrite add_at_limit by assumption. exact IH.
Qed.

Lemma scan_targets_at_limit (targets : list string) :
  forall st,
    FileLimit (config (fs st)) <= len (sorts (fs st)) ->
    (forall t, t ∈ targets -> exists info, os_Stat t (world st) = Ok info) ->
    (scan_targets targets st).1 = None /\
    fs (scan_targets targets st).2 = fs st /\
    world (scan_targets targets st).2 = world st /\
    trace (scan_targets targets st).2 = rev (map EvStat targets) ++ trace st.
Proof.
  induction targets as [|t rest IH]; intros st Hfull Hstat; cbn [scan_targets].
  - auto.
  - destruct (Hstat t) as [info Hinfo]; [left|].
    cbn [emit world]. rewrite Hinfo.
    rewrite add_at_limit by exact Hfull.
    destruct (IH (emit (EvStat t) st)) as (He & Hfs & Hw & Htr).
    + exact Hfull.
    + intros t' Ht'. apply Hstat. right. exact Ht'.
    + rewrite He, Hfs, Hw, Htr. cbn. rewrite <- app_assoc. auto.
Qed.

Lemma add_file_within_limit (path : string) (info : FileInfo) (st : State) :
  len (sorts (fs st)) < FileLimit (config (fs st)) ->
  within_limit st (add_file path info st).
Proof.
  intros Hlt. split; [reflexivity|]. cbn.
  pose proof (len_insert_le (sorts (fs st)) path
    (mkFileSort (int_wrap (len (sorts (fs st)) + 1)) path info None None)). lia.
Qed.

Lemma within_limit_refl (st : State) : within_limit st st.
Proof. split; [reflexivity|lia]. Qed.

Lemma add_within_limit (path : string) (info : FileInfo) (st : State) :
  within_limit st (add path info st).2.
Proof.
  apply add_closed.
  - apply within_limit_refl.
  - apply within_limit_trans.
  - intros st0 _. split; cbn; [reflexivity|lia].
  - apply add_file_within_limit.
  - intros p st0 _ _. split; cbn; [reflexivity|lia].
Qed.

Lemma scan_targets_within_limit (targets : list string) (st : State) :
  within_limit st (scan_targets targets st).2.
Proof.
  apply scan_targets_closed.
  - apply within_limit_refl.
  - apply within_limit_trans.
  - intros st0 _. split; cbn; [reflexivity|lia].
  - apply add_file_within_limit.
  - intros p st0 _ _. split; cbn; [reflexivity|lia].
  - intros p st0. split; cbn; [reflexivity|lia].
Qed.

Lemma add_file_keeps_candidates (path : string) (info : FileInfo) (st : State) :
  keeps_candidates st (add_file path info st).
Proof. unfold keeps_candidates. cbn. rewrite dom_insert_L. set_solver. Qed.

Lemma add_keeps_candidates (path : string) (info : FileInfo) (st : State) :
  keeps_candidates st (add path info st).2.
Proof.
  apply add_closed; unfold keeps_candidates.
  - reflexivity.
  - intros st1 st2 st3 H12 H23. etransitivity; eassumption.
  - reflexivity.
  - intros p i st0 _. apply add_file_keeps_candidates.
  - reflexivity.
Qed.

Lemma scan_targets_keeps_candidates (targets : list string) (st : State) :
  keeps_candidates st (scan_targets targets st).2.
Proof.
  apply scan_targets_closed; unfold keeps_candidates.
  - reflexivity.
  - intros st1 st2 st3 H12 H23. etransitivity; eassumption.
  - reflexivity.
  - intros p i st0 _. apply add_file_keeps_candidates.
  - reflexivity.
  - reflexivity.
Qed.

(** C9. The file limit caps the candidate map at every call of [add],
    nested or not, and so at every point of a scan: the map never grows
    beyond the limit (or beyond what it held, if that was more).  Paths
    that are in the map stay in it.  Once the map has reached the limit,
    [add] is a no-op that returns no error, for files and directories
    alike, so the rest of a listing and the rest of the targets go by
    without a change of the sorter and without an error as long as the
    targets can be stat'ed; with at least one candidate the final check
    of [scan] passes too. *)
Theorem scan_respects_file_limit :
  (forall path info st,
      len (sorts (fs (add path info st).2))
      <= Z.max (len (sorts (fs st))) (FileLimit (config (fs st))) /\
      dom (sorts (fs st)) ⊆ dom (sorts (fs (add path info st).2))) /\
  (forall targets st,
      len (sorts (fs (scan_targets targets st).2))
      <= Z.max (len (sorts (fs st))) (FileLimit (config (fs st))) /\
      dom (sorts (fs st)) ⊆ dom (sorts (fs (scan_targets targets st).2))) /\
  (forall path info st,
      FileLimit (config (fs st)) <= len (sorts (fs st)) ->
      add path info st = (None, st)) /\
  (forall path infos st,
      FileLimit (config (fs st)) <= len (sorts (fs st)) ->
      add_range path infos st = (None, st)) /\
  (forall st,
      FileLimit (config (fs st)) <= len (sorts (fs st)) ->
      0 < len (sorts (fs st)) ->
      (forall t, t ∈ Targets (config (fs st)) ->
                 exists info, os_Stat t (world st) = Ok info) ->
      (scan st).1 = None /\ fs (scan st).2 = fs st).
Proof.
  split; [|split; [|split; [|split]]].
  - intros path info st. split.
    + apply add_within_limit.
    + apply add_keeps_candidates.
  - intros targets st. split.
    + apply scan_targets_within_limit.
    + apply scan_targets_keeps_candidates.
  - apply add_at_limit.
  - apply add_range_at_limit.
  - intros st Hfull Hsome Hstat. unfold scan.
    destruct (scan_targets_at_limit _ st Hfull Hstat) as (He & Hfs & _).
    destruct (scan_targets _ st) as [[e|] st1]; cbn in *; [discriminate|].
    rewrite Hfs. destruct (Z.eqb_spec (len (sorts (fs st))) 0); [lia|].
    cbn. auto.
Qed.

Lemma add_quiet_without_recursion (path : string) (info : FileInfo) (st : State) :
  quiet_without_recursion st (add path info st).2.
Proof.
  apply add_closed; unfold quiet_without_recursion.
  - auto.
  - intros st1 st2 st3 H12 H23 Hrec.
    destruct (H12 Hrec) as (Hc & Hd & Hw & Ht).
    rewrite <- Hc in Hrec. destruct (H23 Hrec) as (Hc' & Hd' & Hw' & Ht').
    repeat split; congruence.
  - cbn. auto.
  - cbn. auto.
  - intros p st0 Hrec _ Hnot. congruence.
Qed.

(** C2, as the code has it. Without recursion the scanner never descends,
    so the only directories it meets are the targets themselves; it
    records no directory and lists none.  The only error [add] can then
    return is the one that asks for recursive mode, and it returns it for
    every directory that is neither skipped as hidden nor met after the
    file limit is reached, leaving the sorter as it was: a directory
    given as a target aborts the scan. *)
Theorem add_directory_requires_recursion
    (path : string) (info : FileInfo) (st : State) :
  Recursive (config (fs st)) = false ->
  dirs (fs (add path info st).2) = dirs (fs st) /\
  trace (add path info st).2 = trace st /\
  (forall err,
      (add path info st).1 = Some err ->
      err = errors_New "Recursive mode (-r) is required to sort directories" /\
      IsDir info = true /\ (add path info st).2 = st) /\
  (IsDir info = true ->
   SkipHidden (config (fs st)) && strings_HasPrefix (Name info) "." = false ->
   len (sorts (fs st)) < FileLimit (config (fs st)) ->
   add path info st =
     (Some (errors_New "Recursive mode (-r) is required to sort directories"), st) /\
   forall rest,
     Targets (config (fs st)) = path :: rest ->
     os_Stat path (world st) = Ok info ->
     scan st =
       (Some (errors_New "Recursive mode (-r) is required to sort directories"),
        emit (EvStat path) st)).
Proof.
  intros Hrec.
  destruct (add_quiet_without_recursion path info st Hrec) as (_ & Hd & _ & Ht).
  split; [exact Hd|]. split; [exact Ht|].
  assert (Hdir : forall st0,
    Recursive (config (fs st0)) = false ->
    IsDir info = true ->
    SkipHidden (config (fs st0)) && strings_HasPrefix (Name info) "." = false ->
    len (sorts (fs st0)) < FileLimit (config (fs st0)) ->
    add path info st0 = (Some recursive_required, st0)).
  { intros st0 Hrec0 Hisdir Hhid Hlim. rewrite add_unfold. unfold skipped.
    rewrite Hhid. destruct (Z.leb_spec (FileLimit (config (fs st0)))
      (len (sorts (fs st0)))); [lia|]. cbn [orb].
    rewrite (IsDir_not_regular _ Hisdir), Hisdir, Hrec0. reflexivity. }
  split.
  - intros err. rewrite add_unfold, Hrec.
    destruct (skipped info st); [discriminate|].
    destruct (FileMode_IsRegular _).
    { destruct (index_bool _ _); discriminate. }
    destruct (IsDir info); [|discriminate].
    cbn. intros [= <-]. auto.
  - intros Hisdir Hhid Hlim. split; [apply Hdir; assumption|].
    intros rest Htargets Hstat. unfold scan. rewrite Htargets.
    cbn [scan_targets emit world]. rewrite Hstat.
    rewrite (Hdir (emit (EvStat path) st)) by assumption. reflexivity.
Qed.

Lemma scan_targets_at_limit_any (targets : list string) :
  forall st,
    FileLimit (config (fs st)) <= len (sorts (fs st)) ->
    fs (scan_targets targets st).2 = fs st /\
    world (scan_targets targets st).2 = world st /\
    exists tr,
      trace (scan_targets targets st).2 = tr ++ trace st /\
      Forall (fun e => exists p, e = EvStat p) tr.
Proof.
  induction targets as [|t rest IH]; intros st Hfull; cbn [scan_targets].
  - repeat split. exists []. split; [reflexivity|constructor].
  - cbn [emit world]. destruct (os_Stat t (world st)) as [info|err].
    + rewrite add_at_limit by exact Hfull.
      destruct (IH (emit (EvStat t) st) Hfull) as (Hfs & Hw & tr & Htr & Hall).
      rewrite Hfs, Hw, Htr. repeat split. exists (tr ++ [EvStat t]). split.
      * cbn. rewrite <- app_assoc. reflexivity.
      * apply Forall_app. split; [assumption|]. repeat constructor. eauto.
    + cbn. repeat split. exists [EvStat t]. split; [reflexivity|].
      repeat constructor. eauto.
Qed.

(** C10, as the code has it. With a file limit of 0 the limit check of
    [add] always fires: [add] returns at once, for every entry, with no
    candidate added, no directory recorded and nothing counted.  So
    [FileSystemSort] always fails, having done nothing but stat targets.
    It fails with the message that 0 files were checked whenever the
    configuration passes validation and every target can be stat'ed;
    otherwise it fails earlier, with the validation error or the error
    of the stat. *)
Theorem FileSystemSort_zero_file_limit (c : Config) :
  FileLimit c = 0 ->
  (forall path info st, config (fs st) = c -> add path info st = (None, st)) /\
  (forall passes w,
      exists err tr,
        FileSystemSort (S passes) c w = (Returned (Some err), w, tr) /\
        Forall (fun e => exists p, e = EvStat p) tr) /\
  (forall passes w,
      Watch c && negb (Recursive c) = false ->
      Overwrite c && OverwriteIfLarger c = false ->
      (forall t, t ∈ Targets c -> exists info, os_Stat t w = Ok info) ->
      FileSystemSort (S passes) c w =
        (Returned (Some (errors_New "No sortable files found (0 files checked)")),
         w, rev (map EvStat (Targets c)))).
Proof.
  intros Hzero. split; [|split].
  - intros path info st <-. apply add_at_limit. rewrite Hzero. apply len_nonneg.
  - intros passes w. unfold FileSystemSort.
    cbn [with_default_dirs Watch Recursive Overwrite OverwriteIfLarger].
    destruct (Watch c && negb (Recursive c)).
    { do 2 eexists. split; [reflexivity|constructor]. }
    destruct (Overwrite c && OverwriteIfLarger c).
    { do 2 eexists. split; [reflexivity|constructor]. }
    set (c' := with_default_dirs c).
    set (st0 := reset_state (mkState (init_fsSort c') w [])).
    assert (Hfull : FileLimit (config (fs st0)) <= len (sorts (fs st0))).
    { cbn. rewrite Hzero. reflexivity. }
    destruct (scan_targets_at_limit_any (Targets (config (fs st0))) st0 Hfull)
      as (Hfs & Hw & tr & Htr & Hall).
    cbn [sort_loop]. fold st0. unfold scan.
    destruct (scan_targets (Targets (config (fs st0))) st0) as [[err|] st1];
      cbn [fst snd] in *.
    + exists err, tr. cbn. rewrite Hw, Htr. cbn. rewrite app_nil_r. auto.
    + rewrite Hfs. cbn. rewrite !len_empty, orb_true_r. cbn.
      exists (no_sortable_files 0), tr.
      rewrite Hw, Htr. cbn. rewrite app_nil_r. auto.
  - intros passes w Hwatch Hover Hstat. unfold FileSystemSort.
    cbn [with_default_dirs Watch Recursive Overwrite OverwriteIfLarger].
    rewrite Hwatch, Hover.
    set (c' := with_default_dirs c).
    set (st0 := reset_state (mkState (init_fsSort c') w [])).
    assert (Hfull : FileLimit (config (fs st0)) <= len (sorts (fs st0))).
    { cbn. rewrite Hzero. reflexivity. }
    destruct (scan_targets_at_limit (Targets (config (fs st0))) st0 Hfull)
      as (He & Hfs & Hw & Htr); [exact Hstat|].
    cbn [sort_loop]. fold st0. unfold scan.
    destruct (scan_targets (Targets (config (fs st0))) st0) as [[err|] st1];
      cbn [fst snd] in *; [discriminate|].
    rewrite Hfs. cbn. rewrite !len_empty, orb_true_r. cbn.
    rewrite Hw, Htr. cbn. rewrite app_nil_r. reflexivity.
Qed.

End Scanner.

Section Statistics.
Context {host : Host}.

Lemma int_wrap_id (z : Z) : is_int z -> int_wrap z = z.
Proof.
  unfold is_int, int_wrap. intros Hz. rewrite Z.mod_small by lia. lia.
Qed.

Lemma int_wrap_is_int (z : Z) : is_int (int_wrap z).
Proof.
  unfold is_int, int_wrap.
  pose proof (Z.mod_pos_bound (z + 2 ^ 63) (2 ^ 64) ltac:(lia)). lia.
Qed.

Lemma int_wrap_succ_shift (a k : Z) :
  int_wrap (int_wrap (a + k) + 1) = int_wrap (int_wrap (a + 1) + k).
Proof.
  unfold int_wrap. f_equal.
  replace ((a + k + 2 ^ 63) mod 2 ^ 64 - 2 ^ 63 + 1 + 2 ^ 63)
    with ((a + k + 2 ^ 63) mod 2 ^ 64 + 1) by lia.
  replace ((a + 1 + 2 ^ 63) mod 2 ^ 64 - 2 ^ 63 + k + 2 ^ 63)
    with ((a + 1 + 2 ^ 63) mod 2 ^ 64 + k) by lia.
  rewrite !Zplus_mod_idemp_l. f_equal. lia.
Qed.

Lemma add_shift (k m : Z) (info : FileInfo) :
  forall path st,
    add path info (shift_stats k m st) =
    ((add path info st).1, shift_stats k m (add path info st).2).
Proof.
  assert (Hcount : forall st, count_file (shift_stats k m st) = shift_stats k m (count_file st)).
  { intros st. unfold count_file, shift_stats, set_fs, set_stats, incr_found. cbn.
    rewrite int_wrap_succ_shift. reflexivity. }
  assert (Hfile : forall path i st,
    add_file path i (shift_stats k m st) = shift_stats k m (add_file path i st)).
  { intros path i st. unfold add_file, count_file, shift_stats, set_fs, set_stats,
      set_sorts, incr_found, incr_matched. cbn.
    rewrite !int_wrap_succ_shift. reflexivity. }
  assert (Hrange : forall infos,
    Forall (fun i => forall path st,
      add path i (shift_stats k m st) =
      ((add path i st).1, shift_stats k m (add path i st).2)) infos ->
    forall path st,
      add_range path infos (shift_stats k m st) =
      ((add_range path infos st).1, shift_stats k m (add_range path infos st).2)).
  { induction 1 as [|i rest Hi _ IH]; intros path st; cbn [add_range]; [reflexivity|].
    rewrite Hi. destruct (add _ i st) as [[e|] st1]; cbn [fst snd]; [reflexivity|].
    apply IH. }
  induction info as [name size mode err|name size mode infos IH]
    using FileInfo_tree_ind; intros path st; rewrite !add_unfold;
    change (skipped ?i (shift_stats k m st)) with (skipped i st);
    change (validExts (fs (shift_stats k m st))) with (validExts (fs st));
    change (config (fs (shift_stats k m st))) with (config (fs st));
    rewrite Hcount, Hfile;
    destruct (skipped _ st); try reflexivity;
    destruct (FileMode_IsRegular _);
    try (destruct (index_bool _ _); reflexivity);
    destruct (IsDir _); try reflexivity;
    destruct (Recursive _); try reflexivity; cbn [Listing].
  change (note_dir path (shift_stats k m st)) with (shift_stats k m (note_dir path st)).
  apply Hrange. exact IH.
Qed.

Lemma scan_targets_shift (k m : Z) (targets : list string) :
  forall st,
    scan_targets targets (shift_stats k m st) =
    ((scan_targets targets st).1, shift_stats k m (scan_targets targets st).2).
Proof.
  induction targets as [|t rest IH]; intros st; cbn [scan_targets]; [reflexivity|].
  change (emit (EvStat t) (shift_stats k m st))
    with (shift_stats k m (emit (EvStat t) st)).
  change (world (shift_stats k m (emit (EvStat t) st)))
    with (world (emit (EvStat t) st)).
  destruct (os_Stat t (world (emit (EvStat t) st))) as [info|err]; [|reflexivity].
  rewrite add_shift.
  destruct (add t info (emit (EvStat t) st)) as [[e|] st1]; cbn [fst snd]; [reflexivity|].
  apply IH.
Qed.

Lemma scan_state (st : State) :
  (scan st).2 = (scan_targets (Targets (config (fs st))) st).2.
Proof.
  unfold scan. destruct (scan_targets _ st) as [[e|] st1]; cbn; [reflexivity|].
  destruct (_ && _); reflexivity.
Qed.

(** What a scan counts is added to what was counted before it. *)
Lemma scan_counts_add_up (st : State) :
  is_int (found (stats (fs st))) ->
  is_int (matched (stats (fs st))) ->
  found (stats (fs (scan st).2)) =
    int_wrap (found (stats (fs (scan (zero_stats st)).2)) + found (stats (fs st))) /\
  matched (stats (fs (scan st).2)) =
    int_wrap (matched (stats (fs (scan (zero_stats st)).2)) + matched (stats (fs st))) /\
  moved (stats (fs (scan st).2)) = moved (stats (fs st)).
Proof.
  intros Hf Hm. rewrite !scan_state.
  change (config (fs (zero_stats st))) with (config (fs st)).
  assert (Hst : st = shift_stats (found (stats (fs st))) (matched (stats (fs st)))
                       (zero_stats st)).
  { unfold shift_stats, zero_stats. cbn. rewrite !int_wrap_id by assumption.
    destruct st as [[c v s d [f m mv]] w t]. reflexivity. }
  pose proof (scan_targets_shift (found (stats (fs st))) (matched (stats (fs st)))
    (Targets (config (fs st))) (zero_stats st)) as Hshift.
  rewrite <- Hst in Hshift. rewrite Hshift. cbn.
  repeat split.
  destruct (scan_targets_frame (Targets (config (fs st))) (zero_stats st))
    as (_ & _ & _ & Hmv). exact Hmv.
Qed.

Lemma run_task_fs (file : fileSort) (st : State) : fs (run_task file st) = fs st.
Proof.
  unfold run_task. pose proof (sortFile_fs file st) as H.
  destruct (sortFile file st) as [[err|] st']; exact H.
Qed.

Lemma run_tasks_fs (files : list fileSort) :
  forall st, fs (foldl (fun st file => run_task file st) st files) = fs st.
Proof.
  induction files as [|file rest IH]; intros st; cbn; [reflexivity|].
  rewrite IH. apply run_task_fs.
Qed.

Lemma dryrun_notice_fs (st : State) : fs (dryrun_notice st) = fs st.
Proof. unfold dryrun_notice. destruct (DryRun _); reflexivity. Qed.

Lemma sortAllFiles_fs (st : State) : fs (sortAllFiles st).2 = fs st.
Proof.
  unfold sortAllFiles.
  destruct (_ <? 0); [apply dryrun_notice_fs|].
  destruct (candidates _) as [|file rest] eqn:Hc; [apply dryrun_notice_fs|].
  destruct (_ =? 0); [apply dryrun_notice_fs|].
  cbn [snd]. rewrite run_tasks_fs. apply dryrun_notice_fs.
Qed.

Lemma watch_dirs_fs (ds : list string) :
  forall st, fs (watch_dirs ds st).2 = fs st.
Proof.
  induction ds as [|d rest IH]; intros st; cbn [watch_dirs]; [reflexivity|].
  cbn [emit world]. destruct (watcher_Add d (world st)); [reflexivity|].
  rewrite IH. reflexivity.
Qed.

Lemma watch_fs (st : State) : fs (watch st).2 = fs st.
Proof.
  unfold watch. destruct (_ =? 0); [reflexivity|].
  destruct (fsnotify_NewWatcher _); [reflexivity|].
  pose proof (watch_dirs_fs (map_to_list (dirs (fs st))).*1 st) as H.
  destruct (watch_dirs _ st) as [[err|] st1]; exact H.
Qed.

(** C3, as the code has it. The counters are zero in the sorter that
    [FileSystemSort] starts with, and nothing resets them afterwards.
    When a pass completes and the loop goes on (the scan succeeds, there
    are directories to watch, the dispatcher returns and the watcher
    wakes up), the next pass empties the candidate map and the directory
    set and starts its scan with the counters as the scan of this pass
    left them.  What that scan left is what it would have counted from
    zero, added to the counters the pass began with; the count of moved
    files never changes. *)
Theorem stats_carry_over_to_next_pass
    (passes : nat) (c : Config) (st st1 st2 st3 : State) :
  scan (reset_state st) = (None, st1) ->
  Watch (config (fs st1)) && (len (dirs (fs st1)) =? 0) = false ->
  sortAllFiles st1 = (Returned None, st2) ->
  Watch c = true ->
  watch st2 = (None, st3) ->
  stats (init_fsSort c) = mkStats 0 0 0 /\
  sort_loop (S passes) c st = sort_loop passes c st3 /\
  sorts (fs (reset_state st3)) = ∅ /\
  dirs (fs (reset_state st3)) = ∅ /\
  stats (fs (reset_state st3)) = stats (fs st1) /\
  moved (stats (fs st1)) = moved (stats (fs st)) /\
  (is_int (found (stats (fs st))) ->
   is_int (matched (stats (fs st))) ->
   let counted := stats (fs (scan (zero_stats (reset_state st))).2) in
   found (stats (fs st1)) = int_wrap (found counted + found (stats (fs st))) /\
   matched (stats (fs st1)) = int_wrap (matched counted + matched (stats (fs st))) /\
   is_int (found (stats (fs st1))) /\
   is_int (matched (stats (fs st1)))).
Proof.
  intros Hscan Hdirs Hsort Hwatch Hwake.
  assert (H2 : fs st2 = fs st1).
  { rewrite <- (sortAllFiles_fs st1), Hsort. reflexivity. }
  assert (H3 : fs st3 = fs st2).
  { rewrite <- (watch_fs st2), Hwake. reflexivity. }
  split; [reflexivity|]. split.
  { cbn [sort_loop]. rewrite Hscan, Hdirs, Hsort, Hwatch. cbn [negb]. rewrite Hwake.
    reflexivity. }
  split; [reflexivity|]. split; [reflexivity|]. split.
  { cbn. rewrite H3, H2. reflexivity. }
  pose proof (scan_counts_add_up (reset_state st)) as Hadd.
  rewrite Hscan in Hadd. cbn [snd] in Hadd.
  change (stats (fs (reset_state st))) with (stats (fs st)) in Hadd.
  split.
  { pose proof (scan_closed scan_frame) as Hframe.
    destruct (Hframe ltac:(unfold scan_frame; auto)
              ltac:(unfold scan_frame; intros; intuition congruence)
              ltac:(unfold scan_frame; cbn; auto)
              ltac:(unfold scan_frame; cbn; auto)
              ltac:(unfold scan_frame; cbn; auto)
              ltac:(unfold scan_frame; cbn; auto)
              (reset_state st)) as (_ & _ & _ & Hmv).
    rewrite Hscan in Hmv. exact Hmv. }
  intros Hf Hm counted. destruct (Hadd Hf Hm) as (Ef & Em & _).
  split; [exact Ef|]. split; [exact Em|].
  rewrite Ef, Em. split; apply int_wrap_is_int.
Qed.

End Statistics.

Section Dispatcher.
Context {host : Host}.

Lemma slots_held_app (t1 t2 : list (fileSort * phase)) :
  slots_held (t1 ++ t2) = slots_held t1 + slots_held t2.
Proof. induction t1 as [|t rest IH]; cbn; [reflexivity|]. rewrite IH. lia. Qed.

Lemma slots_held_bounds (tasks : list (fileSort * phase)) :
  0 <= slots_held tasks <= Z.of_nat (length tasks).
Proof.
  induction tasks as [|t rest IH]; cbn [slots_held length]; [lia|].
  destruct (holds_slot t); lia.
Qed.

Lemma unsorted_app (t1 t2 : list (fileSort * phase)) :
  unsorted (t1 ++ t2) = unsorted t1 ++ unsorted t2.
Proof.
  induction t1 as [|[file ph] rest IH]; cbn; [reflexivity|].
  destruct ph; cbn; rewrite IH; reflexivity.
Qed.

Lemma sortFile_trace (file : fileSort) (st : State) :
  exists new, trace (sortFile file st).2 = new ++ trace st.
Proof.
  unfold sortFile.
  repeat match goal with
  | |- context [match ?x with _ => _ end] => destruct x; cbn
  end;
  match goal with
  | |- exists new, ?l = new ++ ?t =>
      let rec go l acc :=
        lazymatch l with
        | t => exists (rev acc); reflexivity
        | ?e :: ?l' => go l' (e :: acc)
        end in go l (@nil event)
  end.
Qed.

Lemma run_task_trace (file : fileSort) (st : State) :
  exists new, trace (run_task file st) = new ++ trace st.
Proof.
  unfold run_task. destruct (sortFile_trace file st) as [new Hnew].
  destruct (sortFile file st) as [[err|] st']; cbn in *.
  - eexists (_ :: new). rewrite Hnew. reflexivity.
  - exists new. exact Hnew.
Qed.

Lemma run_task_logs_error (file : fileSort) (st : State) (err : error) :
  (sortFile file st).1 = Some err ->
  LogFail (f_id file) (len (sorts (fs st))) (f_path file) err ∈ trace (run_task file st).
Proof.
  unfold run_task. pose proof (sortFile_fs file st) as Hfs.
  destruct (sortFile file st) as [[e|] st']; cbn in *; [|discriminate].
  intros [= ->]. rewrite Hfs. left.
Qed.

Lemma dryrun_notice_trace (st : State) :
  exists new, trace (dryrun_notice st) = new ++ trace st.
Proof.
  unfold dryrun_notice. destruct (DryRun _); [exists [LogDryrun]|exists []]; reflexivity.
Qed.

(** *** What every reachable state of the dispatcher satisfies *)

Lemma dstep_fs (d d' : dstate) : dstep d d' -> fs (d_st d') = fs (d_st d).
Proof.
  destruct 1; cbn; try reflexivity; try apply dryrun_notice_fs. apply run_task_fs.
Qed.

Lemma dreach_fs (st : State) (d : dstate) : dreach st d -> fs (d_st d) = fs st.
Proof.
  induction 1 as [|d d' _ IH Hstep]; [reflexivity|].
  rewrite (dstep_fs _ _ Hstep). exact IH.
Qed.

Lemma accounted_step (n : Z) (d d' : dstate) :
  0 <= n ->
  Concurrency (config (fs (d_st d))) = n ->
  accounted n d -> dstep d d' -> accounted n d'.
Proof.
  intros Hn Hcap (Hq & Hwg & Hle & Hpc & Htodo & Hret) Hstep.
  destruct Hstep; unfold accounted, in_flight in *; cbn in *;
    rewrite ?slots_held_app, ?length_app in *; cbn in *;
    repeat split; try lia; try discriminate; try congruence;
    try (intros [?|?]; discriminate);
    try (intros [?|?]; apply Htodo; auto);
    try (intros Hr; specialize (Hret Hr); subst; cbn in *; lia).
Qed.

Lemma dreach_accounted (st : State) (d : dstate) :
  0 <= Concurrency (config (fs st)) ->
  dreach st d -> accounted (Concurrency (config (fs st))) d.
Proof.
  intros Hn. induction 1 as [|d d' Hreach IH Hstep].
  - unfold accounted, dinit, in_flight. cbn. repeat split; try lia; try discriminate.
    intros [?|?]; discriminate.
  - eapply accounted_step; [exact Hn| |exact IH|exact Hstep].
    rewrite (dreach_fs _ _ Hreach). reflexivity.
Qed.

Lemma all_present_step (st : State) (d d' : dstate) :
  all_present st d -> dstep d d' -> all_present st d'.
Proof.
  unfold all_present. intros Hd Hstep. rewrite <- Hd. clear Hd.
  destruct Hstep; cbn; rewrite ?unsorted_app; cbn; try reflexivity;
    solve_Permutation.
Qed.

Lemma dreach_all_present (st : State) (d : dstate) :
  dreach st d -> all_present st d.
Proof.
  induction 1 as [|d d' _ IH Hstep].
  - unfold all_present. cbn. rewrite !app_nil_r. reflexivity.
  - eapply all_present_step; eassumption.
Qed.

Lemma errors_logged_step (d d' : dstate) :
  errors_logged (len (sorts (fs (d_st d)))) d -> dstep d d' ->
  errors_logged (len (sorts (fs (d_st d)))) d'.
Proof.
  unfold errors_logged. intros Hd Hstep.
  destruct Hstep; cbn in *; try exact Hd.
  - intros f e Hin. destruct (dryrun_notice_trace st) as [new ->].
    apply elem_of_app. right. auto.
  - intros f e Hin. destruct (dryrun_notice_trace st) as [new ->].
    apply elem_of_app. right. auto.
  - intros f e Hin. apply elem_of_cons in Hin as [Heq|Hin].
    + injection Heq as -> He. apply run_task_logs_error. auto.
    + destruct (run_task_trace file st) as [new ->].
      apply elem_of_app. right. auto.
Qed.

Lemma dreach_errors_logged (st : State) (d : dstate) :
  dreach st d -> errors_logged (len (sorts (fs st))) d.
Proof.
  induction 1 as [|d d' Hreach IH Hstep].
  - intros f e Hin. cbn in Hin. inversion Hin.
  - rewrite <- (dreach_fs _ _ Hreach) in *. eapply errors_logged_step; eassumption.
Qed.

(** *** Every schedule ends *)

Lemma tasks_steps_app (t1 t2 : list (fileSort * phase)) :
  tasks_steps (t1 ++ t2) = (tasks_steps t1 + tasks_steps t2)%nat.
Proof. induction t1 as [|t rest IH]; cbn; [reflexivity|]. rewrite IH. lia. Qed.

Lemma dstep_steps_left (d d' : dstate) :
  dstep d d' -> (steps_left d' < steps_left d)%nat.
Proof.
  destruct 1; unfold steps_left; cbn;
    rewrite ?tasks_steps_app, ?length_app; cbn; lia.
Qed.

Lemma slot_holder (tasks : list (fileSort * phase)) :
  0 < slots_held tasks ->
  exists tasks1 file ph tasks2,
    tasks = tasks1 ++ (file, ph) :: tasks2 /\ (ph = Spawned \/ ph = Sorted).
Proof.
  induction tasks as [|[file ph] rest IH]; cbn [slots_held]; [lia|].
  intros Hpos. destruct ph; cbn in Hpos.
  - exists [], file, Spawned, rest. auto.
  - exists [], file, Sorted, rest. auto.
  - destruct IH as (t1 & f & ph & t2 & -> & Hph); [lia|].
    exists ((file, Received) :: t1), f, ph, t2. auto.
Qed.

(** With a capacity of at least one, a call that has not returned can
    take a step: no schedule deadlocks. *)
Lemma dstep_progress (d : dstate) :
  1 <= Concurrency (config (fs (d_st d))) ->
  accounted (Concurrency (config (fs (d_st d)))) d ->
  d_pc d <> AtReturn ->
  exists d', dstep d d'.
Proof.
  destruct d as [pc todo q wg tasks ended st]. cbn.
  intros Hn (Hq & Hwg & Hle & Hpc & Htodo & Hret) Hrun.
  unfold in_flight in *. cbn in *.
  assert (Hholder : 0 < slots_held tasks -> 0 < q ->
    exists d', dstep (mkDstate pc todo q wg tasks ended st) d').
  { intros Hpos Hqpos.
    destruct (slot_holder tasks Hpos) as (t1 & f & ph & t2 & -> & [->| ->]).
    - eexists. apply step_task_sort.
    - eexists. apply step_task_receive. exact Hqpos. }
  destruct pc; try contradiction.
  - eexists. apply step_make. lia.
  - destruct todo as [|file rest].
    + eexists. apply step_range_end.
    + eexists. apply (step_range [] file rest).
  - destruct (Z.lt_ge_cases q (Concurrency (config (fs st)))) as [Hlt|Hge].
    + eexists. apply step_send. exact Hlt.
    + apply Hholder; cbn in *; lia.
  - eexists. apply step_go.
  - destruct tasks as [|[file ph] rest].
    + cbn in Hwg. subst wg. eexists. apply step_wait.
    + destruct ph.
      * eexists. apply (step_task_sort _ _ _ _ []).
      * eexists. apply (step_task_receive _ _ _ _ []). cbn in Hq.
        pose proof (slots_held_bounds rest). lia.
      * eexists. apply (step_task_done _ _ _ _ []).
Qed.

Lemma dreach_rtc (st : State) (d d' : dstate) :
  dreach st d -> rtc dstep d d' -> dreach st d'.
Proof.
  intros Hd Hsteps. induction Hsteps as [|d1 d2 d3 Hstep _ IH]; [exact Hd|].
  apply IH. eapply dreach_step; eassumption.
Qed.

(** With a capacity of at least one, every schedule can be run to the
    return of the call, in at most [steps_left] more steps. *)
Lemma dreach_returns (st : State) :
  1 <= Concurrency (config (fs st)) ->
  forall (n : nat) (d : dstate),
    steps_left d = n -> dreach st d ->
    exists d', rtc dstep d d' /\ d_pc d' = AtReturn.
Proof.
  intros Hn n. induction n as [n IH] using lt_wf_ind. intros d Hleft Hreach.
  assert (Hcase : d_pc d = AtReturn \/ d_pc d <> AtReturn)
    by (destruct (d_pc d); auto; right; discriminate).
  destruct Hcase as [Hret|Hrun].
  { exists d. split; [constructor|exact Hret]. }
  pose proof (dreach_fs _ _ Hreach) as Hfs.
  destruct (dstep_progress d) as [d1 Hstep].
  - rewrite Hfs. exact Hn.
  - rewrite Hfs. apply dreach_accounted; [lia|exact Hreach].
  - exact Hrun.
  - pose proof (dstep_steps_left _ _ Hstep) as Hdec.
    destruct (IH (steps_left d1) ltac:(lia) d1 eq_refl) as (d' & Hsteps & Hret).
    + eapply dreach_step; eassumption.
    + exists d'. split; [|exact Hret]. eapply rtc_l; eassumption.
Qed.

(** *** The schedule of [sortAllFiles] is one of them *)

Lemma sequential_range (files : list fileSort) :
  forall ended st,
    1 <= Concurrency (config (fs st)) ->
    exists ended',
      rtc dstep (mkDstate AtRange files 0 0 [] ended st)
                (mkDstate AtRange [] 0 0 [] ended'
                   (foldl (fun st file => run_task file st) st files)).
Proof.
  induction files as [|file rest IH]; intros ended st Hn.
  - exists ended. constructor.
  - destruct (IH ((file, (sortFile file st).1) :: ended) (run_task file st))
      as [ended' Hrest].
    { rewrite run_task_fs. exact Hn. }
    exists ended'. cbn [foldl].
    eapply rtc_l; [apply (step_range [] file rest)|]. cbn [app].
    eapply rtc_l; [apply step_send; lia|].
    eapply rtc_l; [apply step_go|].
    eapply rtc_l; [apply (step_task_sort _ _ _ _ [])|]. cbn [app].
    eapply rtc_l; [apply (step_task_receive _ _ _ _ []); lia|]. cbn [app].
    eapply rtc_l; [apply (step_task_done _ _ _ _ [])|]. cbn [app].
    replace (0 + 1 - 1) with 0 by lia. exact Hrest.
Qed.

Lemma sortAllFiles_schedule (st : State) :
  1 <= Concurrency (config (fs st)) ->
  (sortAllFiles st).1 = Returned None /\
  exists d,
    dreach st d /\ d_pc d = AtReturn /\ d_st d = (sortAllFiles st).2.
Proof.
  intros Hn.
  assert (Hn0 : 1 <= Concurrency (config (fs (dryrun_notice st)))).
  { rewrite dryrun_notice_fs. exact Hn. }
  assert (Hcand : candidates (dryrun_notice st) = candidates st).
  { unfold candidates. rewrite dryrun_notice_fs. reflexivity. }
  assert (Hout : sortAllFiles st =
    (Returned None,
     foldl (fun st file => run_task file st) (dryrun_notice st) (candidates st))).
  { unfold sortAllFiles. rewrite Hcand.
    destruct (Z.ltb_spec (Concurrency (config (fs (dryrun_notice st)))) 0); [lia|].
    destruct (Z.eqb_spec (Concurrency (config (fs (dryrun_notice st)))) 0); [lia|].
    destruct (candidates st); reflexivity. }
  rewrite Hout. split; [reflexivity|].
  destruct (sequential_range (candidates st) [] (dryrun_notice st) Hn0)
    as [ended Hrun].
  exists (mkDstate AtReturn [] 0 0 [] ended
            (foldl (fun st file => run_task file st) (dryrun_notice st) (candidates st))).
  split; [|split; reflexivity].
  eapply dreach_rtc.
  - eapply dreach_step; [apply dreach_init|]. apply step_make. lia.
  - eapply rtc_trans; [exact Hrun|].
    eapply rtc_l; [apply step_range_end|].
    eapply rtc_l; [apply step_wait|]. constructor.
Qed.

(** When the call has returned nothing is left to do. *)
Lemma dreach_returned (st : State) (d : dstate) :
  0 <= Concurrency (config (fs st)) ->
  dreach st d ->
  d_pc d = AtReturn ->
  d_todo d = [] /\ d_tasks d = [] /\ d_queue d = 0 /\
  (d_ended d).*1 ≡ₚ candidates st.
Proof.
  intros Hn Hreach Hpc_ret.
  destruct (dreach_accounted st d Hn Hreach) as (Hq & Hwg & _ & _ & Htodo & Hret).
  specialize (Hret Hpc_ret).
  assert (Htasks : d_tasks d = []).
  { destruct (d_tasks d); [reflexivity|]. rewrite Hpc_ret in Hwg.
    cbn [length added_ahead] in Hwg. lia. }
  pose proof (dreach_all_present st d Hreach) as Hall. unfold all_present in Hall.
  rewrite Htodo, Htasks, Hpc_ret in Hall by auto. cbn in Hall.
  unfold in_flight in Hq. rewrite Htasks, Hpc_ret in Hq. cbn in Hq.
  auto.
Qed.

(** C7. For a capacity [N >= 1] and any number of candidates, in every
    state the goroutines of [sortAllFiles] can reach: at most [N] tasks
    are in flight; [queue] holds exactly one token for each of them, plus
    the one the dispatcher has sent for the task it is about to start, and
    never more than [N]; a task gets in flight only by the step that
    starts it, which finds its token already sent; [wg] counts the tasks
    that have not ended.  When the call has returned, [range] has yielded
    every candidate, no task is left, every token has been taken back and
    every candidate has been placed exactly once. *)
Theorem sortAllFiles_bounded_concurrency (st : State) (d : dstate) :
  1 <= Concurrency (config (fs st)) ->
  dreach st d ->
  0 <= in_flight d <= Concurrency (config (fs st)) /\
  d_queue d = in_flight d + sent_ahead (d_pc d) /\
  d_queue d <= Concurrency (config (fs st)) /\
  d_wg d = Z.of_nat (length (d_tasks d)) + added_ahead (d_pc d) /\
  (forall d', dstep d d' -> in_flight d < in_flight d' ->
              sent_ahead (d_pc d) = 1 /\ d_queue d' = d_queue d /\
              in_flight d' = in_flight d + 1) /\
  (d_pc d = AtReturn ->
   d_todo d = [] /\ d_tasks d = [] /\ d_queue d = 0 /\
   (d_ended d).*1 ≡ₚ candidates st).
Proof.
  intros Hn Hreach.
  destruct (dreach_accounted st d ltac:(lia) Hreach)
    as (Hq & Hwg & Hle & Hpc & Htodo & Hret).
  pose proof (slots_held_bounds (d_tasks d)) as Hb. fold (in_flight d) in Hb.
  assert (Hsent : 0 <= sent_ahead (d_pc d)) by (destruct (d_pc d); cbn; lia).
  assert (Hadded : 0 <= added_ahead (d_pc d)) by (destruct (d_pc d); cbn; lia).
  split; [lia|]. split; [exact Hq|]. split; [exact Hle|]. split; [exact Hwg|].
  split.
  - intros d' Hstep. clear -Hstep.
    destruct Hstep; unfold in_flight; cbn; rewrite ?slots_held_app; cbn; lia.
  - apply dreach_returned; [lia|exact Hreach].
Qed.

(** C6. For a capacity of at least one, [sortAllFiles] returns nil, and
    so does every other schedule of its goroutines: from every state they
    can reach, the call can be run to its return, whatever the placements
    have returned; every error a placement has returned is in the log
    with the id of the candidate, the number of candidates, its path and
    the error; and once the call has returned, its result is nil and
    every candidate has been placed exactly once, failed or not. *)
Theorem sortAllFiles_contains_errors (st : State) :
  1 <= Concurrency (config (fs st)) ->
  (sortAllFiles st).1 = Returned None /\
  (exists d, dreach st d /\ d_pc d = AtReturn /\ d_st d = (sortAllFiles st).2) /\
  forall d,
    dreach st d ->
    (exists d', rtc dstep d d' /\ d_pc d' = AtReturn) /\
    (forall file err,
        (file, Some err) ∈ d_ended d ->
        LogFail (f_id file) (len (sorts (fs st))) (f_path file) err
          ∈ trace (d_st d)) /\
    (d_pc d = AtReturn ->
     d_result d = Some None /\ (d_ended d).*1 ≡ₚ candidates st).
Proof.
  intros Hn. destruct (sortAllFiles_schedule st Hn) as [Hout Hsched].
  split; [exact Hout|]. split; [exact Hsched|].
  intros d Hreach. split; [|split].
  - eapply dreach_returns; [exact Hn|reflexivity|exact Hreach].
  - apply dreach_errors_logged. exact Hreach.
  - intros Hret. split; [unfold d_result; rewrite Hret; reflexivity|].
    apply (dreach_returned st d); [lia|exact Hreach|exact Hret].
Qed.

End Dispatcher.

Section ScannerMore.
Context {host : Host}.

(** X1. A scan only looks: [add] and [scan] leave the world as it is, and
    all they add to the trace are stats and directory listings; they
    never create, rename or resolve anything. *)
Theorem scan_only_looks :
  (forall path info st, only_probes st (add path info st).2) /\
  (forall st, only_probes st (scan st).2).
Proof.
  assert (Hsame : forall st st',
    world st' = world st -> trace st' = trace st -> only_probes st st').
  { intros st st' Hw Ht. split; [exact Hw|]. exists [].
    split; [exact Ht|constructor]. }
  assert (Htrans : forall st1 st2 st3,
    only_probes st1 st2 -> only_probes st2 st3 -> only_probes st1 st3).
  { intros st1 st2 st3 (Hw1 & n1 & Ht1 & Hp1) (Hw2 & n2 & Ht2 & Hp2).
    split; [congruence|]. exists (n2 ++ n1). rewrite Ht2, Ht1, app_assoc.
    split; [reflexivity|]. apply Forall_app. auto. }
  assert (Hone : forall e st, is_probe e = true -> only_probes st (emit e st)).
  { intros e st He. split; [reflexivity|]. exists [e].
    split; [reflexivity|]. repeat constructor. exact He. }
  assert (Hnote : forall p st, only_probes st (note_dir p st)).
  { intros p st. split; [reflexivity|]. exists [EvReadDir p].
    split; [reflexivity|]. repeat constructor. }
  split.
  - intros path info st. apply add_closed.
    + intros st0. apply Hsame; reflexivity.
    + exact Htrans.
    + intros st0 _. apply Hsame; reflexivity.
    + intros p i st0 _. apply Hsame; reflexivity.
    + intros p st0 _ _. apply Hnote.
  - intros st. apply scan_closed.
    + intros st0. apply Hsame; reflexivity.
    + exact Htrans.
    + intros st0 _. apply Hsame; reflexivity.
    + intros p i st0 _. apply Hsame; reflexivity.
    + intros p st0 _ _. apply Hnote.
    + intros p st0. apply (Hone (EvStat p)). reflexivity.
Qed.

(** X2. The directory set is the record of the listings: if it holds
    exactly the directories listed so far, it still does after [add] and
    after [scan].  So, from the empty set and trace of a first pass, the
    directories handed to the watcher are those the scan has listed. *)
Theorem scan_records_listed_directories (st : State) :
  dirs_listed st ->
  (forall path info, dirs_listed (add path info st).2) /\
  dirs_listed (scan st).2.
Proof.
  assert (Hsame : forall st st' : State,
    dirs (fs st') = dirs (fs st) -> trace st' = trace st ->
    dirs_listed st -> dirs_listed st').
  { intros s s' Hd Ht H p. rewrite Hd, Ht. apply H. }
  assert (Hnote : forall p s, dirs_listed s -> dirs_listed (note_dir p s)).
  { intros q s H p. cbn. destruct (H p) as [H1 H2].
    destruct (decide (q = p)) as [->|Hne].
    - rewrite lookup_insert_eq. split; [reflexivity|]. intros _. left.
    - rewrite lookup_insert_ne by exact Hne. split.
      + intros Hin. apply elem_of_cons in Hin as [Heq|Hin]; [congruence|auto].
      + intros Hsome. right. auto. }
  assert (Hstat : forall q s, dirs_listed s -> dirs_listed (emit (EvStat q) s)).
  { intros q s H p. cbn. destruct (H p) as [H1 H2]. split.
    - intros Hin. apply elem_of_cons in Hin as [Heq|Hin]; [discriminate|auto].
    - intros Hsome. right. auto. }
  intros Hst. split.
  - intros path info. revert Hst.
    apply (add_closed (fun s s' => dirs_listed s -> dirs_listed s')).
    + auto.
    + auto.
    + intros s _. apply Hsame; reflexivity.
    + intros p i s _. apply Hsame; reflexivity.
    + intros p s _ _. apply Hnote.
  - revert Hst.
    apply (scan_closed (fun s s' => dirs_listed s -> dirs_listed s')).
    + auto.
    + auto.
    + intros s _. apply Hsame; reflexivity.
    + intros p i s _. apply Hsame; reflexivity.
    + intros p s _ _. apply Hnote.
    + intros p s. apply Hstat.
Qed.

(** *** Relations that every step of a scan respects, given its guards *)

Section Guarded.
Variable R : State -> State -> Prop.
Hypothesis G_refl : forall st, R st st.
Hypothesis G_trans : forall st1 st2 st3, R st1 st2 -> R st2 st3 -> R st1 st3.
Hypothesis G_count :
  forall path info st,
    skipped info st = false ->
    FileMode_IsRegular (Mode info) = true ->
    index_bool (validExts (fs st)) (filepath_Ext path) = false ->
    R st (count_file st).
Hypothesis G_add :
  forall path info st,
    skipped info st = false ->
    FileMode_IsRegular (Mode info) = true ->
    index_bool (validExts (fs st)) (filepath_Ext path) = true ->
    R st (add_file path info st).
Hypothesis G_note :
  forall path info st,
    skipped info st = false ->
    IsDir info = true ->
    Recursive (config (fs st)) = true ->
    R st (note_dir path st).
Hypothesis G_stat : forall path st, R st (emit (EvStat path) st).

Lemma add_guarded (info : FileInfo) :
  forall path st, R st (add path info st).2.
Proof.
  assert (Hleaf : forall i path st,
    (forall infos, Listing i = Ok infos ->
       forall st', R st' (add_range path infos st').2) ->
    R st (add path i st).2).
  { intros i path st Hlist. rewrite add_unfold.
    destruct (skipped i st) eqn:Hskip; [apply G_refl|].
    destruct (FileMode_IsRegular (Mode i)) eqn:Hreg.
    { destruct (index_bool _ _) eqn:Hext; cbn; eauto. }
    destruct (IsDir i) eqn:Hdir; [|apply G_refl].
    destruct (Recursive _) eqn:Hrec; [|apply G_refl].
    pose proof (G_note path i st Hskip Hdir Hrec) as Hnote.
    destruct (Listing i) as [infos|err] eqn:Hl; cbn; [|exact Hnote].
    eapply G_trans; [exact Hnote|]. apply (Hlist infos eq_refl). }
  induction info as [name size mode err|name size mode infos IH]
    using FileInfo_tree_ind; intros path st; apply Hleaf.
  - intros infos Hl. discriminate.
  - intros infos' [= <-]. clear -IH G_refl G_trans.
    induction IH as [|i rest Hi _ IHrest]; intros st'; cbn [add_range].
    + apply G_refl.
    + specialize (Hi (filepath_Join path (Name i)) st').
      destruct (add _ i st') as [[e|] st1]; cbn in *; [exact Hi|].
      eapply G_trans; [exact Hi|apply IHrest].
Qed.

Lemma scan_guarded (st : State) : R st (scan st).2.
Proof.
  assert (Htargets : forall targets st0, R st0 (scan_targets targets st0).2).
  { induction targets as [|t rest IH]; intros st0; cbn [scan_targets].
    - apply G_refl.
    - cbn [emit world]. destruct (os_Stat t (world st0)) as [info|err]; cbn.
      + pose proof (add_guarded info t (emit (EvStat t) st0)) as Hadd.
        destruct (add t info _) as [[e|] st1]; cbn in *.
        * eapply G_trans; [apply G_stat|exact Hadd].
        * eapply G_trans; [apply G_stat|].
          eapply G_trans; [exact Hadd|apply IH].
      + apply G_stat. }
  unfold scan. specialize (Htargets (Targets (config (fs st))) st).
  destruct (scan_targets _ st) as [[e|] st1]; cbn in *; [exact Htargets|].
  destruct (_ && _); exact Htargets.
Qed.

End Guarded.

(** X3. The candidate map stays well formed through [add] and [scan]:
    every candidate is stored under its own path, is a regular file whose
    extension is in the table of allowed extensions, is not hidden when
    hidden entries are skipped, has no result and no error yet, and has an
    id between 1 and the file limit. *)
Theorem scan_keeps_candidates_well_formed (st : State) :
  is_int (FileLimit (config (fs st))) ->
  sorts_ok st ->
  (forall path info, sorts_ok (add path info st).2) /\
  sorts_ok (scan st).2.
Proof.
  set (R := fun s s' : State =>
    config (fs s') = config (fs s) /\ validExts (fs s') = validExts (fs s) /\
    (is_int (FileLimit (config (fs s))) -> sorts_ok s -> sorts_ok s')).
  assert (Hrefl : forall s, R s s) by (intros s; unfold R; auto).
  assert (Htrans : forall s1 s2 s3, R s1 s2 -> R s2 s3 -> R s1 s3).
  { intros s1 s2 s3 (Hc1 & Hv1 & H1) (Hc2 & Hv2 & H2). unfold R.
    split; [congruence|]. split; [congruence|]. intros Hint Hok.
    apply H2; [rewrite Hc1; exact Hint|auto]. }
  assert (Hsame : forall s s' : State,
    config (fs s') = config (fs s) -> validExts (fs s') = validExts (fs s) ->
    sorts (fs s') = sorts (fs s) -> R s s').
  { intros s s' Hc Hv Hs. unfold R. split; [exact Hc|]. split; [exact Hv|].
    intros _ Hok k file. unfold sorts_ok in Hok. rewrite Hc, Hv, Hs. apply Hok. }
  assert (Hadd : forall path info s,
    skipped info s = false ->
    FileMode_IsRegular (Mode info) = true ->
    index_bool (validExts (fs s)) (filepath_Ext path) = true ->
    R s (add_file path info s)).
  { intros path info s Hskip Hreg Hext. unfold R.
    split; [reflexivity|]. split; [reflexivity|]. intros Hint Hok k file.
    cbn. unfold skipped in Hskip. apply orb_false_iff in Hskip as [Hhid Hlim].
    apply Z.leb_gt in Hlim. pose proof (len_nonneg (sorts (fs s))) as Hlen.
    destruct (decide (path = k)) as [->|Hne].
    - rewrite lookup_insert_eq. intros [= <-]. unfold candidate_ok. cbn.
      rewrite int_wrap_id by (unfold is_int in *; lia).
      repeat split; auto; try lia.
      intros Hsh. rewrite Hsh in Hhid. exact Hhid.
    - rewrite lookup_insert_ne by exact Hne. apply Hok. }
  intros Hint Hok. split.
  - intros path info.
    apply (add_guarded R Hrefl Htrans) with (info := info) (path := path) (st := st);
      try assumption.
    + intros p i s _ _ _. apply Hsame; reflexivity.
    + intros p i s _ _ _. apply Hsame; reflexivity.
  - apply (scan_guarded R Hrefl Htrans) with (st := st); try assumption.
    + intros p i s _ _ _. apply Hsame; reflexivity.
    + intros p i s _ _ _. apply Hsame; reflexivity.
    + intros p s. apply Hsame; reflexivity.
Qed.

End ScannerMore.

Section ControlLoop.
Context {host : Host}.



Lemma watch_dirs_none (ds : list string) :
  forall st st1,
    watch_dirs ds st = (None, st1) ->
    st1 = mkState (fs st) (world st) (subscriptions ds ++ trace st).
Proof.
  induction ds as [|d rest IH]; intros st st1; cbn [watch_dirs].
  - intros [= <-]. destruct st; reflexivity.
  - cbn [emit world]. destruct (watcher_Add d (world st)); [discriminate|].
    intros Hw. apply IH in Hw as ->. cbn.
    unfold subscriptions. cbn [rev]. rewrite flat_map_app. cbn.
    rewrite <- app_assoc. reflexivity.
Qed.

Lemma subscriptions_all (ds : list string) (d : string) :
  d ∈ ds -> EvWatcherAdd d ∈ subscriptions ds.
Proof.
  intros Hd. unfold subscriptions. apply list_elem_of_In, in_flat_map.
  exists d. split; [rewrite <- in_rev; apply list_elem_of_In, Hd|].
  right. left. reflexivity.
Qed.

Lemma watch_dirs_error (ds : list string) :
  forall st err st',
    watch_dirs ds st = (Some err, st') ->
    fs st' = fs st /\ world st' = world st /\ exists e, err = failed_to_watch e.
Proof.
  induction ds as [|d rest IH]; intros st err st'; cbn [watch_dirs].
  - discriminate.
  - cbn [emit world]. destruct (watcher_Add d (world st)) as [e|].
    + intros [= <- <-]. eauto.
    + intros H. apply IH in H. exact H.
Qed.

(** X5. How [watch] ends.  With an empty directory set it fails at once
    and does nothing.  Whenever it fails, the sorter and the world are as
    before and the error is the one on the empty set, the one of the
    watcher that could not be created or the one of the directory that
    could not be subscribed.  When it returns nil, the set was not empty,
    every directory of the set has been subscribed, once each, and after
    them come the wait for a change, its log line and the sleep of the
    configured delay; the sorter is unchanged and the world is what the wake-up
    left. *)
Theorem watch_outcome (st : State) :
  (dirs (fs st) = ∅ ->
   watch st = (Some (errors_New "No directories to watch"), st)) /\
  (forall err st',
      watch st = (Some err, st') ->
      fs st' = fs st /\ world st' = world st /\
      (err = errors_New "No directories to watch" \/
       (exists e, err = failed_to_create_watcher e) \/
       (exists e, err = failed_to_watch e))) /\
  (forall st',
      watch st = (None, st') ->
      dirs (fs st) <> ∅ /\
      fs st' = fs st /\
      world st' = watcher_wake (WatchDelay (config (fs st))) (world st) /\
      (forall d, is_Some (dirs (fs st) !! d) -> EvWatcherAdd d ∈ trace st') /\
      trace st' =
        EvSleep (WatchDelay (config (fs st))) ::
        LogChange (WatchDelay (config (fs st))) :: EvSelect ::
        subscriptions (map_to_list (dirs (fs st))).*1 ++ trace st).
Proof.
  split; [|split].
  - intros Hempty. unfold watch. rewrite Hempty. reflexivity.
  - intros err st'. unfold watch.
    destruct (len (dirs (fs st)) =? 0);
      [intros [= <- <-]; repeat split; left; reflexivity|].
    destruct (fsnotify_NewWatcher (world st)) as [e|];
      [intros [= <- <-]; repeat split; right; left; eexists; reflexivity|].
    destruct (watch_dirs (map_to_list (dirs (fs st))).*1 st) as [[e'|] st1] eqn:Hw;
      [|cbv zeta; discriminate].
    intros [= <- <-]. destruct (watch_dirs_error _ _ _ _ Hw) as (Hf & Hwd & He).
    auto.
  - intros st'. unfold watch.
    destruct (Z.eqb_spec (len (dirs (fs st))) 0) as [|Hne]; [discriminate|].
    destruct (fsnotify_NewWatcher (world st)) as [e|]; [discriminate|].
    destruct (watch_dirs (map_to_list (dirs (fs st))).*1 st) as [[e'|] st1] eqn:Hw;
      [discriminate|].
    cbv zeta. intros [= <-]. apply watch_dirs_none in Hw as ->. cbn.
    split.
    { intros Hempty. apply Hne. rewrite Hempty. apply len_empty. }
    split; [reflexivity|]. split; [reflexivity|]. split; [|reflexivity].
    intros d [v Hd]. do 3 right. apply elem_of_app. left.
    apply subscriptions_all. apply list_elem_of_fmap. exists (d, v).
    split; [reflexivity|]. apply elem_of_map_to_list. exact Hd.
Qed.

Lemma sortAllFiles_outcome (st : State) :
  (sortAllFiles st).1 = Returned None \/
  (sortAllFiles st).1 = Panicked \/
  (sortAllFiles st).1 = Blocked.
Proof.
  unfold sortAllFiles. destruct (_ <? 0); [auto|].
  destruct (candidates _); [auto|]. destruct (_ =? 0); auto.
Qed.

Lemma sort_loop_without_watch (n : nat) (c : Config) (st : State) :
  Watch c = false ->
  sort_loop (S n) c st = sort_loop 1 c st /\
  (sort_loop (S n) c st).1 <> Looping.
Proof.
  intros Hwatch. cbn [sort_loop].
  destruct (scan (reset_state st)) as [[err|] st1]; [split; [reflexivity|discriminate]|].
  destruct (Watch (config (fs st1)) && _); [split; [reflexivity|discriminate]|].
  pose proof (sortAllFiles_outcome st1) as Hout.
  destruct (sortAllFiles st1) as [[[err|]| | |] st2]; cbn [fst] in Hout;
    rewrite ?Hwatch; cbn [negb]; split; try reflexivity; try discriminate.
  destruct Hout as [H|[H|H]]; discriminate.
Qed.

(** X6. Without watch the control loop makes exactly one pass: whatever
    the pass does, [FileSystemSort] has ended after it, so one pass of
    fuel gives the same result as any larger number, and the call is
    never left looping. *)
Theorem FileSystemSort_without_watch_is_one_pass
    (n : nat) (c : Config) (w : World) :
  Watch c = false ->
  FileSystemSort (S n) c w = FileSystemSort 1 c w /\
  (FileSystemSort (S n) c w).1.1 <> Looping.
Proof.
  intros Hwatch. unfold FileSystemSort.
  cbn [with_default_dirs Watch Recursive Overwrite OverwriteIfLarger].
  destruct (Watch c && negb (Recursive c)); [split; [reflexivity|discriminate]|].
  destruct (Overwrite c && OverwriteIfLarger c); [split; [reflexivity|discriminate]|].
  set (c' := with_default_dirs c).
  destruct (sort_loop_without_watch n c' (mkState (init_fsSort c') w []) Hwatch)
    as [Heq Hne].
  rewrite Heq. split; [reflexivity|].
  rewrite <- Heq. destruct (sort_loop (S n) c' _) as [out st]. exact Hne.
Qed.

Lemma sort_loop_with_watch (c : Config) (n : nat) :
  Watch c = true ->
  forall st, (sort_loop n c st).1 <> Returned None.
Proof.
  intros Hwatch. induction n as [|n IH]; intros st; cbn [sort_loop]; [discriminate|].
  destruct (scan (reset_state st)) as [[err|] st1]; [discriminate|].
  destruct (Watch (config (fs st1)) && _); [discriminate|].
  destruct (sortAllFiles st1) as [[[err|]| | |] st2]; try discriminate.
  rewrite Hwatch. cbn [negb].
  destruct (watch st2) as [[err|] st3]; [discriminate|]. apply IH.
Qed.

(** X7. With watch set [FileSystemSort] never returns nil: the loop is
    left only by an error (of the validation, the scan, the empty
    directory set or the watcher) or by a dispatcher that does not
    return; otherwise it is still looping when the passes run out. *)
Theorem FileSystemSort_with_watch_never_succeeds
    (n : nat) (c : Config) (w : World) :
  Watch c = true ->
  (FileSystemSort n c w).1.1 <> Returned None.
Proof.
  intros Hwatch. unfold FileSystemSort.
  cbn [with_default_dirs Watch Recursive Overwrite OverwriteIfLarger].
  destruct (Watch c && negb (Recursive c)); [discriminate|].
  destruct (Overwrite c && OverwriteIfLarger c); [discriminate|].
  set (c' := with_default_dirs c).
  pose proof (sort_loop_with_watch c' n Hwatch (mkState (init_fsSort c') w [])) as H.
  destruct (sort_loop n c' _) as [out st]. exact H.
Qed.

End ControlLoop.

Section DispatcherMore.
Context {host : Host}.

Lemma sortFile_sort_events (file : fileSort) (st : State) :
  exists new,
    trace (sortFile file st).2 = new ++ trace st /\
    List.filter is_sort new = [EvSort (f_path file)].
Proof.
  unfold sortFile.
  repeat match goal with
  | |- context [match ?x with _ => _ end] => destruct x; cbn
  end;
  match goal with
  | |- exists new, ?l = new ++ ?t /\ _ =>
      let rec go l acc :=
        lazymatch l with
        | t => exists (rev acc); split; reflexivity
        | ?e :: ?l' => go l' (e :: acc)
        end in go l (@nil event)
  end.
Qed.

Lemma run_task_sort_events (file : fileSort) (st : State) :
  exists new,
    trace (run_task file st) = new ++ trace st /\
    List.filter is_sort new = [EvSort (f_path file)].
Proof.
  unfold run_task. destruct (sortFile_sort_events file st) as (new & Ht & Hf).
  destruct (sortFile file st) as [[err|] st']; cbn in *.
  - eexists (_ :: new). rewrite Ht. split; [reflexivity|]. cbn. exact Hf.
  - exists new. auto.
Qed.

Lemma run_tasks_sort_events (files : list fileSort) :
  forall st,
    exists new,
      trace (foldl (fun st file => run_task file st) st files) = new ++ trace st /\
      List.filter is_sort new = rev (map (fun f => EvSort (f_path f)) files).
Proof.
  induction files as [|file rest IH]; intros st; cbn [foldl map rev].
  - exists []. split; reflexivity.
  - destruct (run_task_sort_events file st) as (n1 & Ht1 & Hf1).
    destruct (IH (run_task file st)) as (n2 & Ht2 & Hf2).
    exists (n2 ++ n1). rewrite Ht2, Ht1, app_assoc. split; [reflexivity|].
    rewrite List.filter_app, Hf1, Hf2. reflexivity.
Qed.

(** X8. Under every schedule the resolver is called exactly once for each
    candidate placed: in every state the goroutines of [sortAllFiles] can
    reach, the calls of the resolver added to the trace are, up to their
    order, those for the paths of the files placed so far; and when the
    call has returned, those for the paths of all the candidates. *)
Theorem sortAllFiles_resolves_each_candidate_once (st : State) (d : dstate) :
  0 <= Concurrency (config (fs st)) ->
  dreach st d ->
  exists new,
    trace (d_st d) = new ++ trace st /\
    List.filter is_sort new ≡ₚ map (fun f => EvSort (f_path f)) (d_ended d).*1 /\
    (d_pc d = AtReturn ->
     List.filter is_sort new ≡ₚ map (fun f => EvSort (f_path f)) (candidates st)).
Proof.
  intros Hn Hreach.
  assert (Hinv : exists new,
    trace (d_st d) = new ++ trace st /\
    List.filter is_sort new ≡ₚ map (fun f => EvSort (f_path f)) (d_ended d).*1).
  { clear Hn. induction Hreach as [|d d' Hreach IH Hstep].
    - exists []. split; reflexivity.
    - destruct IH as (new & Ht & Hf).
      assert (Hnotice : forall s : State, trace s = new ++ trace st ->
        exists new', trace (dryrun_notice s) = new' ++ trace st /\
                     List.filter is_sort new' = List.filter is_sort new).
      { intros s Hs. unfold dryrun_notice. destruct (DryRun _).
        - exists (LogDryrun :: new). cbn. rewrite Hs. auto.
        - exists new. auto. }
      destruct Hstep; cbn in *; try (exists new; split; assumption).
      + destruct (Hnotice st0 Ht) as (new' & Ht' & Hf'). exists new'.
        rewrite Hf'. auto.
      + destruct (Hnotice st0 Ht) as (new' & Ht' & Hf'). exists new'.
        rewrite Hf'. auto.
      + destruct (run_task_sort_events file st0) as (n1 & Ht1 & Hf1).
        exists (n1 ++ new). rewrite Ht1, Ht, app_assoc. split; [reflexivity|].
        rewrite List.filter_app, Hf1. cbn. rewrite Hf. reflexivity. }
  destruct Hinv as (new & Ht & Hf). exists new.
  split; [exact Ht|]. split; [exact Hf|].
  intros Hret. rewrite Hf.
  destruct (dreach_returned st d Hn Hreach Hret) as (_ & _ & _ & Hall).
  apply Permutation_map. exact Hall.
Qed.

Lemma scan_config (st : State) : config (fs (scan st).2) = config (fs st).
Proof.
  rewrite scan_state.
  destruct (scan_targets_frame (Targets (config (fs st))) st) as (Hc & _).
  exact Hc.
Qed.

Lemma candidates_nonempty (st : State) :
  len (sorts (fs st)) <> 0 -> candidates st <> [].
Proof.
  unfold candidates, len. intros Hlen Hnil. apply Hlen.
  apply fmap_nil_inv in Hnil. apply map_to_list_empty_iff in Hnil.
  rewrite Hnil, map_size_empty. reflexivity.
Qed.

(** X9. Without watch, a [FileSystemSort] that returns nil has found at
    least one candidate and handed it to the resolver: success is never
    the report of a run that had nothing to sort. *)
Theorem FileSystemSort_success_has_resolved
    (n : nat) (c : Config) (w w' : World) (tr : list event) :
  Watch c = false ->
  FileSystemSort n c w = (Returned None, w', tr) ->
  exists p, EvSort p ∈ tr.
Proof.
  intros Hwatch. unfold FileSystemSort.
  cbn [with_default_dirs Watch Recursive Overwrite OverwriteIfLarger].
  destruct (Watch c && negb (Recursive c)); [discriminate|].
  destruct (Overwrite c && OverwriteIfLarger c); [discriminate|].
  set (c' := with_default_dirs c).
  set (st0 := mkState (init_fsSort c') w []).
  destruct n as [|n]; [discriminate|]. cbn [sort_loop].
  pose proof (scan_config (reset_state st0)) as Hconf.
  unfold scan in *.
  destruct (scan_targets (Targets (config (fs (reset_state st0)))) (reset_state st0))
    as [[err|] st1]; [discriminate|].
  destruct ((len (sorts (fs st1)) =? 0) && _) eqn:Hcheck;
    [discriminate|]. cbn [snd] in Hconf.
  rewrite Hconf in *. change (Watch (config (fs (reset_state st0)))) with (Watch c) in *.
  rewrite Hwatch in *. cbn [negb orb andb] in *.
  rewrite andb_true_r in Hcheck. apply Z.eqb_neq in Hcheck.
  pose proof (candidates_nonempty st1 Hcheck) as Hne.
  assert (Hcand : candidates (dryrun_notice st1) = candidates st1).
  { unfold candidates. rewrite dryrun_notice_fs. reflexivity. }
  unfold sortAllFiles. rewrite Hcand.
  destruct (_ <? 0); [discriminate|].
  destruct (candidates st1) as [|file rest]; [contradiction|].
  destruct (_ =? 0); [discriminate|].
  change (Watch c') with (Watch c). rewrite Hwatch. cbn [negb].
  intros [= <- <-]. exists (f_path file).
  destruct (run_tasks_sort_events (file :: rest) (dryrun_notice st1))
    as (new & Ht & Hf).
  cbn [foldl] in Ht |- *.
  rewrite Ht. apply elem_of_app. left. apply list_elem_of_In.
  apply (proj1 (List.filter_In is_sort (EvSort (f_path file)) new)).
  rewrite Hf. apply in_rev. rewrite rev_involutive. left. reflexivity.
Qed.

Lemma add_non_directory (path : string) (info : FileInfo) (st : State) :
  IsDir info = false ->
  (add path info st).1 = None /\
  dirs (fs (add path info st).2) = dirs (fs st) /\
  world (add path info st).2 = world st /\
  trace (add path info st).2 = trace st.
Proof.
  intros Hdir. rewrite add_unfold, Hdir.
  destruct (skipped info st); [auto|].
  destruct (FileMode_IsRegular _); [|auto].
  destruct (index_bool _ _); cbn; auto.
Qed.

Lemma scan_targets_non_directories (targets : list string) :
  forall st,
    (forall t, t ∈ targets ->
               exists info, os_Stat t (world st) = Ok info /\ IsDir info = false) ->
    (scan_targets targets st).1 = None /\
    dirs (fs (scan_targets targets st).2) = dirs (fs st) /\
    world (scan_targets targets st).2 = world st /\
    trace (scan_targets targets st).2 = rev (map EvStat targets) ++ trace st.
Proof.
  induction targets as [|t rest IH]; intros st Hstat; cbn [scan_targets].
  - auto.
  - destruct (Hstat t) as (info & Hinfo & Hdir); [left|].
    cbn [emit world]. rewrite Hinfo.
    destruct (add_non_directory t info (emit (EvStat t) st) Hdir)
      as (He & Hd & Hw & Ht).
    destruct (add t info (emit (EvStat t) st)) as [[e|] st1];
      cbn [fst snd] in *; [discriminate|].
    destruct (IH st1) as (He' & Hd' & Hw' & Ht').
    { intros t' Ht'. rewrite Hw. apply Hstat. right. exact Ht'. }
    rewrite He', Hd', Hw', Ht', Hd, Hw, Ht. cbn. rewrite <- app_assoc. auto.
Qed.

Lemma len_keeps_candidates (st st' : State) :
  keeps_candidates st st' -> len (sorts (fs st)) <= len (sorts (fs st')).
Proof.
  unfold keeps_candidates, len. intros Hsub.
  apply subseteq_size in Hsub. rewrite !size_dom in Hsub. lia.
Qed.

Lemma add_not_sortable (path : string) (info : FileInfo) (st : State) :
  IsDir info = false ->
  FileLimit (config (fs st)) <= 0 \/
    sortable_in (config (fs st)) (validExts (fs st)) path info = false ->
  sorts (fs (add path info st).2) = sorts (fs st).
Proof.
  intros Hdir Hnot. rewrite add_unfold, Hdir. unfold skipped, sortable_in in *.
  destruct (SkipHidden _ && _); cbn [orb negb andb] in *; [reflexivity|].
  destruct (Z.leb_spec (FileLimit (config (fs st))) (len (sorts (fs st))));
    [reflexivity|].
  destruct Hnot as [Hlim|Hnot].
  { pose proof (len_nonneg (sorts (fs st))). lia. }
  destruct (FileMode_IsRegular _); [|reflexivity]. cbn [andb] in Hnot.
  rewrite Hnot. reflexivity.
Qed.

Lemma add_sortable (path : string) (info : FileInfo) (st : State) :
  0 < FileLimit (config (fs st)) ->
  sortable_in (config (fs st)) (validExts (fs st)) path info = true ->
  0 < len (sorts (fs (add path info st).2)).
Proof.
  intros Hlim Hyes. rewrite add_unfold. unfold skipped, sortable_in in *.
  apply andb_true_iff in Hyes as [Hyes Hext].
  apply andb_true_iff in Hyes as [Hhid Hreg].
  apply negb_true_iff in Hhid. rewrite Hhid, Hreg, Hext. cbn [orb].
  destruct (Z.leb_spec (FileLimit (config (fs st))) (len (sorts (fs st))));
    cbn [snd]; [lia|].
  cbn. unfold len.
  pose proof (map_size_ne_0_lookup_2
    (<[path := mkFileSort (int_wrap (Z.of_nat (size (sorts (fs st))) + 1))
                 path info None None]> (sorts (fs st))) path) as Hsize.
  rewrite lookup_insert_eq in Hsize. specialize (Hsize ltac:(eauto)). lia.
Qed.

Lemma scan_targets_none_sortable (targets : list string) :
  forall st,
    (forall t, t ∈ targets ->
               exists info, os_Stat t (world st) = Ok info /\ IsDir info = false) ->
    FileLimit (config (fs st)) <= 0 \/
      (forall t info, t ∈ targets -> os_Stat t (world st) = Ok info ->
         sortable_in (config (fs st)) (validExts (fs st)) t info = false) ->
    sorts (fs (scan_targets targets st).2) = sorts (fs st).
Proof.
  induction targets as [|t rest IH]; intros st Hstat Hnot; cbn [scan_targets].
  - reflexivity.
  - destruct (Hstat t) as (info & Hinfo & Hdir); [left|].
    cbn [emit world]. rewrite Hinfo.
    pose proof (add_not_sortable t info (emit (EvStat t) st) Hdir) as Hadd.
    destruct (add_frame t info (emit (EvStat t) st)) as (Hc & Hv & Hw & _).
    destruct (add t info (emit (EvStat t) st)) as [[e|] st1]; cbn [fst snd] in *.
    + apply Hadd. destruct Hnot as [Hlim|Hnot]; [left; exact Hlim|].
      right. apply Hnot; [left|exact Hinfo].
    + rewrite IH.
      * apply Hadd. destruct Hnot as [Hlim|Hnot]; [left; exact Hlim|].
        right. apply Hnot; [left|exact Hinfo].
      * intros t' Ht'. rewrite Hw. apply Hstat. right. exact Ht'.
      * rewrite Hc, Hv, Hw. destruct Hnot as [Hlim|Hnot]; [left; exact Hlim|].
        right. intros t' i' Ht'. apply Hnot. right. exact Ht'.
Qed.

Lemma scan_targets_some_sortable (targets : list string) :
  forall st,
    (forall t, t ∈ targets ->
               exists info, os_Stat t (world st) = Ok info /\ IsDir info = false) ->
    0 < FileLimit (config (fs st)) ->
    0 < len (sorts (fs st)) \/
      (exists t info, t ∈ targets /\ os_Stat t (world st) = Ok info /\
         sortable_in (config (fs st)) (validExts (fs st)) t info = true) ->
    0 < len (sorts (fs (scan_targets targets st).2)).
Proof.
  induction targets as [|t rest IH]; intros st Hstat Hlim Hyes; cbn [scan_targets].
  - destruct Hyes as [Hpos|(t & info & Ht & _)]; [exact Hpos|inversion Ht].
  - destruct (Hstat t) as (info & Hinfo & Hdir); [left|].
    cbn [emit world]. rewrite Hinfo.
    pose proof (add_sortable t info (emit (EvStat t) st) Hlim) as Hadd.
    pose proof (len_keeps_candidates _ _
      (add_keeps_candidates t info (emit (EvStat t) st))) as Hmono.
    destruct (add_frame t info (emit (EvStat t) st)) as (Hc & Hv & Hw & _).
    destruct (add_non_directory t info (emit (EvStat t) st) Hdir) as (He & _).
    destruct (add t info (emit (EvStat t) st)) as [[e|] st1];
      cbn [fst snd] in *; [discriminate|].
    apply IH.
    + intros t' Ht'. rewrite Hw. apply Hstat. right. exact Ht'.
    + rewrite Hc. exact Hlim.
    + rewrite Hc, Hv, Hw.
      cbn [emit fs] in Hmono.
      destruct Hyes as [Hpos|(t' & i' & Ht' & Hi' & Hs')]; [left; lia|].
      apply elem_of_cons in Ht' as [->|Ht'].
      * left. apply Hadd. rewrite Hinfo in Hi'. injection Hi' as <-. exact Hs'.
      * right. eauto.
Qed.

(** X10. Watching needs a directory among the targets.  With watch (and
    recursive) set, if every target can be stat'ed and none is a
    directory, [FileSystemSort] fails in its first pass, having done
    nothing but stat the targets, before any candidate is dispatched.  It
    fails with the message on sortable files when no target becomes a
    candidate: when the file limit is not positive, or no target is a
    regular file with an allowed extension that is not skipped as hidden.
    It fails with the message on directories to watch otherwise. *)
Theorem FileSystemSort_watch_needs_a_directory
    (n : nat) (c : Config) (w : World) :
  Watch c = true ->
  Recursive c = true ->
  Overwrite c && OverwriteIfLarger c = false ->
  (forall t, t ∈ Targets c ->
             exists info, os_Stat t w = Ok info /\ IsDir info = false) ->
  (exists err,
     FileSystemSort (S n) c w =
       (Returned (Some err), w, rev (map EvStat (Targets c))) /\
     (err = errors_New "No directories to watch" \/
      exists k, err = no_sortable_files k)) /\
  (FileLimit c <= 0 \/
     (forall t info, t ∈ Targets c -> os_Stat t w = Ok info ->
        sortable c t info = false) ->
   exists k,
     FileSystemSort (S n) c w =
       (Returned (Some (no_sortable_files k)), w, rev (map EvStat (Targets c)))) /\
  (0 < FileLimit c ->
   (exists t info, t ∈ Targets c /\ os_Stat t w = Ok info /\
      sortable c t info = true) ->
   FileSystemSort (S n) c w =
     (Returned (Some (errors_New "No directories to watch")), w,
      rev (map EvStat (Targets c)))).
Proof.
  intros Hwatch Hrec Hover Hstat.
  set (c' := with_default_dirs c).
  set (st0 := reset_state (mkState (init_fsSort c') w [])).
  set (st1 := (scan_targets (Targets c) st0).2).
  assert (Hrun : FileSystemSort (S n) c w =
    (Returned (Some (if len (sorts (fs st1)) =? 0
                     then no_sortable_files (found (stats (fs st1)))
                     else errors_New "No directories to watch")),
     w, rev (map EvStat (Targets c)))).
  { unfold FileSystemSort.
    cbn [with_default_dirs Watch Recursive Overwrite OverwriteIfLarger].
    rewrite Hwatch, Hrec, Hover. cbn [negb andb].
    fold c'. cbn [sort_loop]. fold st0.
    pose proof (scan_config st0) as Hconf. unfold scan in *.
    change (Targets (config (fs st0))) with (Targets c) in *.
    destruct (scan_targets_non_directories (Targets c) st0 Hstat)
      as (He & Hd & Hw & Ht).
    fold st1 in He, Hd, Hw, Ht.
    destruct (scan_targets (Targets c) st0) as [[e|] st1'] eqn:Hscan;
      cbn [fst snd] in *; [discriminate|]. subst st1. cbn [snd] in *.
    assert (Hdirs : (len (dirs (fs st1')) =? 0) = true).
    { rewrite Hd. cbn. rewrite len_empty. reflexivity. }
    rewrite Hdirs, orb_true_r, andb_true_r in *.
    destruct (len (sorts (fs st1')) =? 0); cbn [snd] in Hconf.
    - cbv beta iota zeta. rewrite Hw, Ht. cbn. rewrite app_nil_r. reflexivity.
    - rewrite Hconf. change (Watch (config (fs st0))) with (Watch c).
      rewrite Hwatch. cbn [andb]. rewrite Hdirs.
      cbv beta iota zeta. rewrite Hw, Ht. cbn. rewrite app_nil_r. reflexivity. }
  assert (Hexts : init_validExts c' = init_validExts c) by reflexivity.
  assert (Hsame : forall t info,
    sortable_in (config (fs st0)) (validExts (fs st0)) t info = sortable c t info).
  { intros t info. unfold sortable, sortable_in.
    cbn [st0 reset_state set_fs set_dirs set_sorts fs config validExts init_fsSort].
    rewrite Hexts. reflexivity. }
  split; [|split].
  - eexists. split; [exact Hrun|].
    destruct (len (sorts (fs st1)) =? 0); [right; eexists|left]; reflexivity.
  - intros Hnot. exists (found (stats (fs st1))). rewrite Hrun.
    assert (Hsorts : sorts (fs st1) = sorts (fs st0)).
    { apply (scan_targets_none_sortable (Targets c) st0 Hstat).
      destruct Hnot as [Hlim|Hnot]; [left; exact Hlim|].
      right. intros t info Ht Hinfo. rewrite Hsame. apply Hnot; assumption. }
    rewrite Hsorts. change (sorts (fs st0)) with (∅ : gmap string fileSort).
    rewrite len_empty. reflexivity.
  - intros Hlim Hyes. rewrite Hrun.
    assert (Hpos : 0 < len (sorts (fs st1))).
    { apply (scan_targets_some_sortable (Targets c) st0 Hstat Hlim).
      right. destruct Hyes as (t & info & Ht & Hinfo & Hs).
      exists t, info. rewrite Hsame. auto. }
    destruct (Z.eqb_spec (len (sorts (fs st1))) 0); [lia|reflexivity].
Qed.


(** X11. A capacity of 0 blocks the dispatch.  With at least one
    candidate, no schedule of the goroutines of [sortAllFiles] ever
    returns: the dispatcher gets no further than its first send, no
    goroutine is ever started and no candidate is placed; this is the
    outcome the function [sortAllFiles] reports. *)
Theorem unbuffered_queue_blocks_dispatch (st : State) (d : dstate) :
  Concurrency (config (fs st)) = 0 ->
  candidates st <> [] ->
  dreach st d ->
  d_pc d <> AtReturn /\ d_pc d <> AtWait /\
  d_tasks d = [] /\ d_ended d = [] /\ d_queue d = 0 /\
  (d_st d = st \/ d_st d = dryrun_notice st) /\
  (sortAllFiles st).1 = Blocked.
Proof.
  intros Hzero Hsome Hreach.
  assert (Hfun : (sortAllFiles st).1 = Blocked).
  { unfold sortAllFiles, candidates. rewrite dryrun_notice_fs, Hzero.
    fold (candidates st). cbn. destruct (candidates st); [contradiction|reflexivity]. }
  assert (Hinv : d_tasks d = [] /\ d_ended d = [] /\ d_queue d = 0 /\
    ((d_pc d = AtStart /\ d_todo d = candidates st /\ d_st d = st) \/
     (d_pc d = AtRange /\ d_todo d = candidates st /\ d_st d = dryrun_notice st) \/
     (exists file, d_pc d = AtSend file /\ d_st d = dryrun_notice st))).
  { induction Hreach as [|d d' Hreach IH Hstep].
    - cbn. auto 10.
    - destruct IH as (Htasks & Hended & Hq & Hpc).
      pose proof (dreach_fs _ _ Hreach) as Hfs.
      destruct Hstep; cbn in *;
        try (exfalso; eapply app_cons_not_nil; symmetry; exact Htasks).
      + destruct Hpc as [(_ & Htodo & ->)|[(Hx & _)|(f & Hx & _)]];
          try discriminate. auto 10.
      + rewrite Hfs, Hzero in *. lia.
      + destruct Hpc as [(Hx & _)|[(_ & Htodo & ->)|(f & Hx & _)]];
          try discriminate. repeat split; auto. right. right. eauto.
      + rewrite Hfs, Hzero in *. lia.
      + destruct Hpc as [(Hx & _)|[(Hx & _)|(f & Hx & _)]]; discriminate.
      + destruct Hpc as [(Hx & _)|[(_ & Htodo & _)|(f & Hx & _)]];
          try discriminate. congruence.
      + destruct Hpc as [(Hx & _)|[(Hx & _)|(f & Hx & _)]]; discriminate. }
  destruct Hinv as (Htasks & Hended & Hq & Hpc).
  destruct Hpc as [(Hx & _ & Hs)|[(Hx & _ & Hs)|(f & Hx & Hs)]];
    rewrite Hx; repeat split; auto; discriminate.
Qed.

Lemma sortFile_dry_quiet (file : fileSort) (st : State) :
  DryRun (config (fs st)) = true ->
  world (sortFile file st).2 = world st /\
  exists new,
    trace (sortFile file st).2 = new ++ trace st /\
    Forall (fun e => is_mutation e = false) new.
Proof.
  intros Hdry. unfold sortFile. cbn [emit fs world trace]. rewrite Hdry.
  destruct (Sort (f_path file) (world st)) as [result|e];
    [|split; [reflexivity|]; exists [EvSort (f_path file)];
      split; [reflexivity|repeat constructor]].
  destruct (PrettyPath result _) as [relPath|e];
    [|split; [reflexivity|]; exists [EvSort (f_path file)];
      split; [reflexivity|repeat constructor]].
  destruct (baseDir_of _ _) as [baseDir|];
    [|split; [reflexivity|]; exists [EvSort (f_path file)];
      split; [reflexivity|repeat constructor]].
  split; [reflexivity|]. eexists [_; _]. split; [reflexivity|repeat constructor].
Qed.

Lemma run_task_dry_quiet (file : fileSort) (st : State) :
  DryRun (config (fs st)) = true ->
  world (run_task file st) = world st /\
  exists new,
    trace (run_task file st) = new ++ trace st /\
    Forall (fun e => is_mutation e = false) new.
Proof.
  intros Hdry. unfold run_task.
  destruct (sortFile_dry_quiet file st Hdry) as (Hw & new & Ht & Hall).
  destruct (sortFile file st) as [[err|] st']; cbn in *.
  - split; [exact Hw|]. eexists (_ :: new). rewrite Ht.
    split; [reflexivity|]. constructor; [reflexivity|exact Hall].
  - split; [exact Hw|]. exists new. auto.
Qed.

(** X12. A dry run never changes the file system, under any schedule: in
    every state the goroutines of [sortAllFiles] can reach, the world is
    the one the call began with and nothing added to the trace is a
    mkdir or a rename; and once the dispatcher has started, the first
    thing added is the dry-run notice. *)
Theorem dry_run_never_mutates (st : State) (d : dstate) :
  DryRun (config (fs st)) = true ->
  dreach st d ->
  world (d_st d) = world st /\
  exists new,
    trace (d_st d) = new ++ trace st /\
    Forall (fun e => is_mutation e = false) new /\
    (d_pc d <> AtStart -> exists new', new = new' ++ [LogDryrun]).
Proof.
  intros Hdry Hreach.
  assert (Hinv : (d_pc d = AtStart -> d_tasks d = [] /\ d_st d = st) /\
    world (d_st d) = world st /\
    exists new,
      trace (d_st d) = new ++ trace st /\
      Forall (fun e => is_mutation e = false) new /\
      (d_pc d <> AtStart -> exists new', new = new' ++ [LogDryrun])).
  { induction Hreach as [|d d' Hreach IH Hstep].
    - cbn. split; [auto|]. split; [reflexivity|]. exists [].
      split; [reflexivity|]. split; [constructor|]. intros H. contradiction.
    - destruct IH as (Hstart & Hw & new & Ht & Hall & Hfirst).
      pose proof (dreach_fs _ _ Hreach) as Hfs.
      assert (Hnotice : forall s : State, fs s = fs st ->
        dryrun_notice s = emit LogDryrun s).
      { intros s Hs. unfold dryrun_notice. rewrite Hs, Hdry. reflexivity. }
      destruct Hstep; cbn in *;
        try (split; [intros; discriminate|]; split; [exact Hw|];
             exists new; repeat split; auto;
             intros _; apply Hfirst; discriminate).
      + destruct (Hstart eq_refl) as [_ ->]. rewrite Hnotice by reflexivity.
        split; [intros; discriminate|]. split; [reflexivity|].
        exists [LogDryrun]. cbn. repeat split; [repeat constructor|].
        intros _. exists []. reflexivity.
      + destruct (Hstart eq_refl) as [_ ->]. rewrite Hnotice by reflexivity.
        split; [intros; discriminate|]. split; [reflexivity|].
        exists [LogDryrun]. cbn. repeat split; [repeat constructor|].
        intros _. exists []. reflexivity.
      + assert (Hpc : pc <> AtStart).
        { intros ->. destruct (Hstart eq_refl) as [Hnil _].
          eapply app_cons_not_nil. symmetry. exact Hnil. }
        destruct (run_task_dry_quiet file st0) as (Hw' & n1 & Ht1 & Hall1).
        { rewrite Hfs. exact Hdry. }
        split; [intros; contradiction|]. split; [congruence|].
        exists (n1 ++ new). rewrite Ht1, Ht, app_assoc.
        split; [reflexivity|]. split; [apply Forall_app; auto|].
        intros _. destruct (Hfirst Hpc) as [new' ->].
        exists (n1 ++ new'). rewrite app_assoc. reflexivity.
      + split; [|split; [exact Hw|exists new; repeat split; auto]].
        intros ->. destruct (Hstart eq_refl) as [Hnil _].
        exfalso. eapply app_cons_not_nil. symmetry. exact Hnil.
      + split; [|split; [exact Hw|exists new; repeat split; auto]].
        intros ->. destruct (Hstart eq_refl) as [Hnil _].
        exfalso. eapply app_cons_not_nil. symmetry. exact Hnil. }
  destruct Hinv as (_ & Hw & Hnew). auto.
Qed.

End DispatcherMore.

Section PlacerMore.
Context {host : Host}.

(** X13. A file that is already where it belongs is left alone: when the
    destination computed for the candidate is the path the resolver
    reports for it, [sortFile] returns nil right after its log line, dry
    run or not, without a stat, a mkdir or a rename. *)
Theorem sortFile_already_sorted
    (file : fileSort) (st : State) (result : Result) (relPath baseDir : string) :
  Sort (f_path file) (world st) = Ok result ->
  PrettyPath result (PathConfig_ (config (fs st))) = Ok relPath ->
  baseDir_of (config (fs st)) (MType result) = Some baseDir ->
  Path result = filepath_Join baseDir relPath ->
  sortFile file st =
    (None,
     emit (LogMove (f_id file) (len (sorts (fs st))) (Path result)
             (filepath_Join baseDir relPath))
       (emit (EvSort (f_path file)) st)).
Proof.
  intros Hsort Hpretty Hbase Hsame. unfold sortFile. cbn [emit fs world trace].
  rewrite Hsort, Hpretty, Hbase. destruct (DryRun _); [reflexivity|].
  rewrite <- Hsame, String.eqb_refl. reflexivity.
Qed.

(** X14. Without an overwrite flag an existing destination is never
    touched: with dry-run, overwrite and overwrite-if-larger all off, a
    candidate whose destination exists (and is not its own path) fails
    with the already-exists error naming the destination, after the stat
    of the destination and nothing else; the world is as before. *)
Theorem sortFile_keeps_destination_without_flags
    (file : fileSort) (st : State) (result : Result) (relPath baseDir : string)
    (newInfo : FileInfo) :
  Sort (f_path file) (world st) = Ok result ->
  PrettyPath result (PathConfig_ (config (fs st))) = Ok relPath ->
  baseDir_of (config (fs st)) (MType result) = Some baseDir ->
  DryRun (config (fs st)) = false ->
  Overwrite (config (fs st)) = false ->
  OverwriteIfLarger (config (fs st)) = false ->
  Path result <> filepath_Join baseDir relPath ->
  os_Stat (filepath_Join baseDir relPath) (world st) = Ok newInfo ->
  sortFile file st =
    (Some (errors_New ("File already exists '" +:+ filepath_Join baseDir relPath
                       +:+ "' (try setting --overwrite)")),
     emit (EvStat (filepath_Join baseDir relPath))
       (emit (LogMove (f_id file) (len (sorts (fs st))) (Path result)
               (filepath_Join baseDir relPath))
          (emit (EvSort (f_path file)) st))).
Proof.
  intros Hsort Hpretty Hbase Hdry Hover Hlarger Hne Hstat.
  unfold sortFile. cbn [emit fs world trace].
  rewrite Hsort, Hpretty, Hbase, Hdry.
  destruct (String.eqb_spec (Path result) (filepath_Join baseDir relPath));
    [contradiction|].
  rewrite Hstat. unfold overwrite_flag. rewrite Hover, Hlarger. reflexivity.
Qed.

(** X15. With the overwrite flag the collision check never refuses: once
    the destination is computed, is not the candidate's own path and
    dry-run is off, [sortFile] goes on to create the destination
    directory whatever the stat of the destination answers, and to the
    rename when that succeeds. *)
Theorem sortFile_overwrite_goes_on
    (file : fileSort) (st : State) (result : Result) (relPath baseDir : string) :
  Sort (f_path file) (world st) = Ok result ->
  PrettyPath result (PathConfig_ (config (fs st))) = Ok relPath ->
  baseDir_of (config (fs st)) (MType result) = Some baseDir ->
  DryRun (config (fs st)) = false ->
  Overwrite (config (fs st)) = true ->
  Path result <> filepath_Join baseDir relPath ->
  EvMkdirAll (filepath_Dir (filepath_Join baseDir relPath)) 493
    ∈ trace (sortFile file st).2 /\
  ((os_MkdirAll (filepath_Dir (filepath_Join baseDir relPath)) 493 (world st)).1
     = None ->
   EvRename (Path result) (filepath_Join baseDir relPath)
     ∈ trace (sortFile file st).2).
Proof.
  intros Hsort Hpretty Hbase Hdry Hover Hne.
  unfold sortFile. cbn [emit fs world trace].
  rewrite Hsort, Hpretty, Hbase, Hdry.
  destruct (String.eqb_spec (Path result) (filepath_Join baseDir relPath));
    [contradiction|].
  assert (Hpass : match os_Stat (filepath_Join baseDir relPath) (world st) with
                  | Ok newInfo => negb (overwrite_flag (config (fs st)) newInfo file)
                  | Err _ => false
                  end = false).
  { destruct (os_Stat _ (world st)); [|reflexivity].
    unfold overwrite_flag. rewrite Hover. reflexivity. }
  rewrite Hpass.
  destruct (os_MkdirAll _ 493 (world st)) as [[e|] w1]; cbn.
  - split; [left|]. discriminate.
  - destruct (os_Rename (Path result) _ w1) as [[e|] w2]; cbn.
    + split; [right; left|]. intros _. left.
    + destruct (os_Stat (subs_path (Path result)) w2); cbn.
      * destruct (os_Rename (subs_path (Path result)) _ w2) as [e w3]. cbn.
        split; [|intros _]; repeat (first [left|right]).
      * split; [|intros _]; repeat (first [left|right]).
Qed.

(** X16. The order of the changes [sortFile] makes.  Among what it adds
    to the trace there is either no change of the file system at all (and
    then the world is as before); or one mkdir that failed; or that mkdir
    followed by the rename of the file; or that mkdir, that rename and
    one rename of the subtitles, and then the result is nil.  So nothing
    is renamed before the destination directory exists, and the
    subtitles are never moved without the file. *)
Theorem sortFile_mutation_order (file : fileSort) (st : State) :
  exists new,
    trace (sortFile file st).2 = new ++ trace st /\
    ((List.filter is_mutation new = [] /\
      world (sortFile file st).2 = world st) \/
     (exists dst,
        List.filter is_mutation new = [EvMkdirAll (filepath_Dir dst) 493] /\
        is_Some (sortFile file st).1) \/
     (exists src dst,
        List.filter is_mutation new =
          [EvRename src dst; EvMkdirAll (filepath_Dir dst) 493]) \/
     (exists src dst,
        List.filter is_mutation new =
          [EvRename (subs_path src) (subs_path dst); EvRename src dst;
           EvMkdirAll (filepath_Dir dst) 493] /\
        (sortFile file st).1 = None)).
Proof.
  unfold sortFile.
  repeat match goal with
  | |- context [match ?x with _ => _ end] => destruct x; cbn
  end;
  match goal with
  | |- exists new, ?l = new ++ ?t /\ _ =>
      let rec go l acc :=
        lazymatch l with
        | t => exists (rev acc)
        | ?e :: ?l' => go l' (e :: acc)
        end in go l (@nil event)
  end;
  (split; [reflexivity|]); cbn;
  first
    [ left; split; reflexivity
    | right; left; eexists; split; [reflexivity|eauto]
    | right; right; left; do 2 eexists; reflexivity
    | right; right; right; do 2 eexists; split; reflexivity ].
Qed.



End PlacerMore.

(** * The sorter at work on the small host *)

Import TestHost.

(** C1. With overwrite-if-larger set, the placer compares the sizes the
    wrong way round.  The 700-byte candidate is refused when the file at
    the destination has 100 bytes, and nothing is created or renamed; it
    replaces the file at the destination when that one has 900 bytes. *)
Theorem sortFile_overwrite_if_larger_is_inverted :
  Size (f_info candidate) = 700 /\
  (sortFile candidate
     (placer_state overwrite_if_larger (world_with_destination 100))).1
    = Some (already_exists destination) /\
  filter (fun e => is_mutation e = true)
    (trace (sortFile candidate
              (placer_state overwrite_if_larger (world_with_destination 100))).2)
    = [] /\
  (sortFile candidate
     (placer_state overwrite_if_larger (world_with_destination 900))).1
    = None /\
  filter (fun e => is_mutation e = true)
    (trace (sortFile candidate
              (placer_state overwrite_if_larger (world_with_destination 900))).2)
    = [ EvRename "/in/Show.S01E02.srt" "/tv/Show/Season 01/Show - S01E02.srt";
        EvRename "/in/Show.S01E02.mkv" destination;
        EvMkdirAll "/tv/Show/Season 01" 493 ] /\
  files (world (sortFile candidate
                  (placer_state overwrite_if_larger (world_with_destination 900))).2)
    !! destination = Some episode.
Proof. repeat apply conj; reflexivity. Qed.

(** C2, refuted as stated. Without recursion, the directory [/in] given
    as the only target is not accepted: the scan stats it and aborts with
    the error that asks for recursive mode, and the directory set stays
    empty. *)
Lemma explicit_directory_target_aborts_scan :
  Recursive flat_config = false /\
  Targets flat_config = ["/in"] /\
  os_Stat "/in" test_world = Ok inbox /\
  IsDir inbox = true /\
  scan (start flat_config test_world) =
    (Some (errors_New "Recursive mode (-r) is required to sort directories"),
     emit (EvStat "/in") (start flat_config test_world)) /\
  dirs (fs (scan (start flat_config test_world)).2) = ∅.
Proof. repeat apply conj; reflexivity. Qed.

(** C3, refuted as stated. A watching run whose first pass examines one
    file and whose second pass examines none (the target has become a
    named pipe) ends its second pass with the message that 1 file was
    checked; the same scan started from fresh counters says 0. *)
Lemma second_pass_reports_files_of_first_pass :
  (FileSystemSort 2 watch_config changing_world).1.1 =
    Returned (Some (errors_New "No sortable files found (1 files checked)")) /\
  stats (fs pass_woken) = mkStats 1 0 0 /\
  stats (fs (reset_state pass_woken)) = mkStats 1 0 0 /\
  (scan (start watch_config (world pass_woken))).1 =
    Some (errors_New "No sortable files found (0 files checked)").
Proof. repeat apply conj; reflexivity. Qed.

(** C10, refuted as stated. With a file limit of 0 and a target that does
    not exist, [FileSystemSort] fails with the error of the stat, not
    with the message on sortable files. *)
Lemma zero_file_limit_missing_target :
  FileLimit missing_target_config = 0 /\
  FileSystemSort 1 missing_target_config test_world =
    (Returned (Some (errors_New "stat /missing: no such file or directory")),
     test_world, [EvStat "/missing"]) /\
  errors_New "stat /missing: no such file or directory"
    <> errors_New "No sortable files found (0 files checked)".
Proof. repeat apply conj; (reflexivity || discriminate). Qed.

(** ** Instances of the theorems *)

Lemma FileSystemSort_rejects_contradictory_config_witness :
  FileSystemSort 1 both_overwrite_flags test_world =
  (Returned (Some (errors_New
     "Overwrite is already specified, overwrite-if-larger is redundant")),
   test_world, []).
Proof.
  apply (FileSystemSort_rejects_contradictory_config 1 both_overwrite_flags test_world).
  left. split; reflexivity.
Defined.

Lemma sortFile_dry_run_witness :
  sortFile candidate (placer_state dry_run (world_with_destination 100)) =
  (None,
   emit (LogMove 1 1 "/in/Show.S01E02.mkv" destination)
     (emit (EvSort "/in/Show.S01E02.mkv")
        (placer_state dry_run (world_with_destination 100)))).
Proof.
  destruct (sortFile_dry_run candidate
              (placer_state dry_run (world_with_destination 100)) eq_refl)
    as (_ & _ & _ & H).
  apply (H episode_result "Show/Season 01/Show - S01E02.mkv" "/tv");
    reflexivity.
Defined.

Lemma sortFile_subtitles_best_effort_witness :
  (sortFile candidate (placer_state test_config world_with_locked_subtitles)).1 = None /\
  run_task candidate (placer_state test_config world_with_locked_subtitles) =
  (sortFile candidate (placer_state test_config world_with_locked_subtitles)).2 /\
  trace (sortFile candidate (placer_state test_config world_with_locked_subtitles)).2 =
    [ EvRename "/in/Show.S01E02.srt" "/tv/Show/Season 01/Show - S01E02.srt";
      EvStat "/in/Show.S01E02.srt";
      EvRename "/in/Show.S01E02.mkv" "/tv/Show/Season 01/Show - S01E02.mkv";
      EvMkdirAll "/tv/Show/Season 01" 493;
      EvStat "/tv/Show/Season 01/Show - S01E02.mkv";
      LogMove 1 1 "/in/Show.S01E02.mkv" "/tv/Show/Season 01/Show - S01E02.mkv";
      EvSort "/in/Show.S01E02.mkv" ] /\
  rename "/in/Show.S01E02.srt" "/tv/Show/Season 01/Show - S01E02.srt"
    (rename "/in/Show.S01E02.mkv" destination
       (mkdirAll "/tv/Show/Season 01" 493 world_with_locked_subtitles).2).2 =
  (Some (permission_denied "rename" "/in/Show.S01E02.srt"),
   world (sortFile candidate (placer_state test_config world_with_locked_subtitles)).2).
Proof.
  destruct (sortFile_subtitles_best_effort candidate
              (placer_state test_config world_with_locked_subtitles)
              episode_result "Show/Season 01/Show - S01E02.mkv" "/tv"
              (mkdirAll "/tv/Show/Season 01" 493 world_with_locked_subtitles).2
              (rename "/in/Show.S01E02.mkv" destination
                 (mkdirAll "/tv/Show/Season 01" 493 world_with_locked_subtitles).2).2)
    as (_ & _ & st' & Hsort & Hrun & _).
  - reflexivity.
  - reflexivity.
  - reflexivity.
  - reflexivity.
  - vm_compute. discriminate.
  - intros newInfo. vm_compute. discriminate.
  - reflexivity.
  - reflexivity.
  - rewrite Hsort, Hrun. split; [reflexivity|]. split; [reflexivity|].
    rewrite <- Hsort. vm_compute. split; reflexivity.
Defined.

Lemma add_directory_requires_recursion_witness :
  add "/in" inbox (start flat_config test_world) =
  (Some (errors_New "Recursive mode (-r) is required to sort directories"),
   start flat_config test_world).
Proof.
  destruct (add_directory_requires_recursion "/in" inbox
              (start flat_config test_world) eq_refl) as (_ & _ & _ & H).
  apply H; reflexivity.
Defined.

Lemma stats_carry_over_to_next_pass_witness :
  stats (fs (reset_state pass_woken)) = stats (fs pass_scanned) /\
  found (stats (fs pass_scanned)) = 1.
Proof.
  destruct (stats_carry_over_to_next_pass 0 watch_config
              (start watch_config changing_world)
              pass_scanned pass_sorted pass_woken) as (_ & _ & _ & _ & H & _).
  - reflexivity.
  - reflexivity.
  - reflexivity.
  - reflexivity.
  - reflexivity.
  - split; [exact H|]. reflexivity.
Defined.

Lemma sortAllFiles_contains_errors_witness :
  (sortAllFiles (placer_state test_config world_without_library)).1 = Returned None.
Proof.
  apply (sortAllFiles_contains_errors (placer_state test_config world_without_library)).
  vm_compute. discriminate.
Defined.

Lemma sortAllFiles_bounded_concurrency_witness :
  in_flight one_in_flight = 1 /\
  0 <= in_flight one_in_flight <= 2 /\
  d_queue one_in_flight = in_flight one_in_flight + 0.
Proof.
  destruct (sortAllFiles_bounded_concurrency
              (placer_state test_config test_world) one_in_flight)
    as (Hbound & Hqueue & _).
  - vm_compute. discriminate.
  - eapply dreach_step; [eapply dreach_step; [eapply dreach_step;
      [eapply dreach_step; [apply dreach_init|]|]|]|].
    + apply step_make. vm_compute. discriminate.
    + apply (step_range [] candidate []).
    + apply step_send. reflexivity.
    + apply step_go.
  - split; [reflexivity|]. split; [exact Hbound|exact Hqueue].
Defined.

Lemma scan_respects_file_limit_witness :
  add "/in/Other.S01E03.mkv" (file_info "Other.S01E03.mkv" 650)
      (placer_state one_file_config test_world) =
  (None, placer_state one_file_config test_world).
Proof.
  destruct scan_respects_file_limit as (_ & _ & H & _).
  apply H. vm_compute. discriminate.
Defined.

Lemma FileSystemSort_zero_file_limit_witness :
  FileSystemSort 1 no_files_config test_world =
  (Returned (Some (errors_New "No sortable files found (0 files checked)")),
   test_world, [EvStat "/in"]).
Proof.
  destruct (FileSystemSort_zero_file_limit no_files_config eq_refl) as (_ & _ & H).
  apply (H 0%nat test_world).
  - reflexivity.
  - reflexivity.
  - intros t Ht. apply list_elem_of_singleton in Ht as ->.
    exists inbox. reflexivity.
Defined.

(** ** Instances of the further theorems *)

Lemma scan_records_listed_directories_witness :
  dirs_listed (scan (start test_config test_world)).2.
Proof.
  apply (scan_records_listed_directories (start test_config test_world)).
  intros p. split.
  - intros H. inversion H.
  - intros [v H]. cbn in H. rewrite lookup_empty in H. discriminate.
Defined.

Lemma scan_keeps_candidates_well_formed_witness :
  sorts_ok (scan (start test_config test_world)).2.
Proof.
  apply (scan_keeps_candidates_well_formed (start test_config test_world)).
  - split; [vm_compute; discriminate|reflexivity].
  - intros k file H. cbn in H. rewrite lookup_empty in H. discriminate.
Defined.

Lemma watch_outcome_witness :
  watch (start watch_config test_world) =
  (Some (errors_New "No directories to watch"), start watch_config test_world).
Proof.
  apply (watch_outcome (start watch_config test_world)). reflexivity.
Defined.

Lemma FileSystemSort_without_watch_is_one_pass_witness :
  FileSystemSort 5 test_config test_world = FileSystemSort 1 test_config test_world.
Proof.
  apply (FileSystemSort_without_watch_is_one_pass 4 test_config test_world).
  reflexivity.
Defined.

Lemma FileSystemSort_with_watch_never_succeeds_witness :
  (FileSystemSort 2 watch_config changing_world).1.1 <> Returned None.
Proof.
  apply (FileSystemSort_with_watch_never_succeeds 2 watch_config changing_world).
  reflexivity.
Defined.

Lemma sortAllFiles_resolves_each_candidate_once_witness :
  exists new,
    trace (d_st returned_after_one) = new ++ [] /\
    List.filter is_sort new ≡ₚ [EvSort "/in/Show.S01E02.mkv"].
Proof.
  destruct (sortAllFiles_resolves_each_candidate_once
              (placer_state test_config test_world) returned_after_one)
    as (new & Ht & _ & Hret).
  - vm_compute. discriminate.
  - eapply dreach_step; [eapply dreach_step; [eapply dreach_step;
      [eapply dreach_step; [eapply dreach_step; [eapply dreach_step;
        [eapply dreach_step; [eapply dreach_step; [eapply dreach_step;
          [apply dreach_init|]|]|]|]|]|]|]|]|].
    + apply step_make. vm_compute. discriminate.
    + apply (step_range [] candidate []).
    + apply step_send. reflexivity.
    + apply step_go.
    + apply (step_task_sort _ _ _ _ [] candidate []).
    + apply (step_task_receive _ _ _ _ [] candidate []). reflexivity.
    + apply (step_task_done _ _ _ _ [] candidate []).
    + apply step_range_end.
    + apply step_wait.
  - exists new. split; [exact Ht|]. exact (Hret eq_refl).
Defined.

Lemma FileSystemSort_success_has_resolved_witness :
  exists p, EvSort p ∈ (FileSystemSort 1 test_config test_world).2.
Proof.
  apply (FileSystemSort_success_has_resolved 1 test_config test_world
           (FileSystemSort 1 test_config test_world).1.2
           (FileSystemSort 1 test_config test_world).2).
  - reflexivity.
  - vm_compute. reflexivity.
Defined.

Lemma FileSystemSort_watch_needs_a_directory_witness :
  FileSystemSort 1 watch_file_config test_world =
  (Returned (Some (errors_New "No directories to watch")), test_world,
   [EvStat "/in/Show.S01E02.mkv"]) /\
  exists k,
    FileSystemSort 1 (with_limit watch_file_config 0) test_world =
    (Returned (Some (no_sortable_files k)), test_world,
     [EvStat "/in/Show.S01E02.mkv"]).
Proof.
  split.
  - destruct (FileSystemSort_watch_needs_a_directory 0 watch_file_config test_world)
      as (_ & _ & H).
    + reflexivity.
    + reflexivity.
    + reflexivity.
    + intros t Ht. apply list_elem_of_singleton in Ht as ->.
      exists episode. split; reflexivity.
    + apply H.
      * reflexivity.
      * exists "/in/Show.S01E02.mkv", episode.
        split; [left|]. split; reflexivity.
  - destruct (FileSystemSort_watch_needs_a_directory 0
                (with_limit watch_file_config 0) test_world)
      as (_ & H & _).
    + reflexivity.
    + reflexivity.
    + reflexivity.
    + intros t Ht. apply list_elem_of_singleton in Ht as ->.
      exists episode. split; reflexivity.
    + apply H. left. reflexivity.
Defined.

Lemma unbuffered_queue_blocks_dispatch_witness :
  d_pc stuck_at_send <> AtReturn /\
  (sortAllFiles (placer_state unbuffered_config test_world)).1 = Blocked.
Proof.
  destruct (unbuffered_queue_blocks_dispatch
              (placer_state unbuffered_config test_world) stuck_at_send)
    as (Hpc & _ & _ & _ & _ & _ & Hfun).
  - reflexivity.
  - intros H. apply (f_equal (@length fileSort)) in H. vm_compute in H.
    discriminate H.
  - eapply dreach_step; [eapply dreach_step; [apply dreach_init|]|].
    + apply step_make. vm_compute. discriminate.
    + apply (step_range [] candidate []).
  - split; [exact Hpc|exact Hfun].
Defined.

Lemma dry_run_never_mutates_witness :
  world (d_st dry_sorted) = test_world.
Proof.
  apply (dry_run_never_mutates (placer_state dry_run test_world) dry_sorted).
  - reflexivity.
  - eapply dreach_step; [eapply dreach_step; [eapply dreach_step;
      [eapply dreach_step; [eapply dreach_step; [apply dreach_init|]|]|]|]|].
    + apply step_make. vm_compute. discriminate.
    + apply (step_range [] candidate []).
    + apply step_send. reflexivity.
    + apply step_go.
    + apply (step_task_sort _ _ _ _ [] candidate []).
Defined.

Lemma sortFile_already_sorted_witness :
  sortFile candidate (placer_state test_config sorted_world) =
  (None,
   emit (LogMove 1 1 destination destination)
     (emit (EvSort "/in/Show.S01E02.mkv") (placer_state test_config sorted_world))).
Proof.
  apply (sortFile_already_sorted candidate (placer_state test_config sorted_world)
           (mkTResult destination "series" "Show/Season 01/Show - S01E02.mkv")
           "Show/Season 01/Show - S01E02.mkv" "/tv");
    reflexivity.
Defined.

Lemma sortFile_keeps_destination_without_flags_witness :
  (sortFile candidate (placer_state test_config (world_with_destination 100))).1 =
  Some (errors_New
    "File already exists '/tv/Show/Season 01/Show - S01E02.mkv' (try setting --overwrite)").
Proof.
  rewrite (sortFile_keeps_destination_without_flags candidate
             (placer_state test_config (world_with_destination 100))
             episode_result "Show/Season 01/Show - S01E02.mkv" "/tv"
             (file_info "Show - S01E02.mkv" 100));
    try (reflexivity).
  vm_compute. discriminate.
Defined.

Lemma sortFile_overwrite_goes_on_witness :
  EvRename "/in/Show.S01E02.mkv" destination
    ∈ trace (sortFile candidate
               (placer_state overwrite_config (world_with_destination 100))).2.
Proof.
  destruct (sortFile_overwrite_goes_on candidate
              (placer_state overwrite_config (world_with_destination 100))
              episode_result "Show/Season 01/Show - S01E02.mkv" "/tv")
    as [_ H]; try (reflexivity).
  - vm_compute. discriminate.
  - apply H. reflexivity.
Defined.
